(** * Reconciliation of the Sia transaction pool with consensus changes

    A shallow embedding of [modules/transactionpool/update.go]
    ([purge], [ProcessConsensusChange], [PurgeTransactionPool]) and the
    properties of its reconciliation algorithm. *)

From stdpp Require Import gmap list strings.

Set Warnings "-register-all".
Local Open Scope Z_scope.

(** ** Package [types] *)

Module types.

(** [types.TransactionID] is a 32-byte hash; only its identity matters. *)
Abbreviation TransactionID := N (only parsing).

(** [types.BlockHeight] is a [uint64]: an integer in [0, 2^64) whose
    arithmetic wraps around. *)
Abbreviation BlockHeight := Z (only parsing).

Definition wrap64 (z : Z) : Z := z mod 2 ^ 64.

(** [h++], [h--] and [a - b] on [uint64]. *)
Definition incr (h : BlockHeight) : BlockHeight := wrap64 (h + 1).
Definition decr (h : BlockHeight) : BlockHeight := wrap64 (h - 1).
Definition sub (a b : BlockHeight) : BlockHeight := wrap64 (a - b).

(** Modelled from the spec: [types.Transaction], declared outside
    [update.go].  "Immutable value identified by a content-derived unique
    TransactionID.  References zero or more ObjectIDs it consumes and
    produces."  The method [ID()] is the projection [ID]. *)
Record Transaction := mkTransaction {
  ID : TransactionID;
  Objects : list N;
}.

(** Modelled from the spec: [types.Block]; [update.go] only reads its
    field [Transactions]. *)
Record Block := mkBlock {
  Transactions : list Transaction;
}.

End types.

(** Go's [error]: [None] is [nil]. *)
Abbreviation error := string (only parsing).

(** ** Package [modules] *)

Module modules.

Abbreviation ConsensusChangeID := N (only parsing).

(** [modules.ConsensusChange], with the four fields [update.go] reads.
    [TryTransactionSet] returns a consensus change (the diff of the set)
    or an error. *)
Inductive ConsensusChange := mkConsensusChange {
  RevertedBlocks : list types.Block;
  AppliedBlocks : list types.Block;
  ID : ConsensusChangeID;
  TryTransactionSet : list types.Transaction → ConsensusChange + error;
}.

End modules.

Abbreviation TryFn :=
  (list types.Transaction → modules.ConsensusChange + error) (only parsing).

(** ** Package [transactionpool] *)

Abbreviation ObjectID := N (only parsing).
Abbreviation TransactionSetID := N (only parsing).

(** maxTxnAge determines the maximum age of a transaction (in block height)
    allowed before the transaction is pruned from the transaction pool. *)
Definition maxTxnAge : types.BlockHeight := 12.

(** Modelled from the spec: the durable store behind [tp.dbTx], "a
    crash-recoverable record of which transactions are confirmed, the
    last-processed change identifier, and the last-processed height". *)
Record DB := mkDB {
  confirmed : gset types.TransactionID;
  recentChange : option modules.ConsensusChangeID;
  storedHeight : option types.BlockHeight;
}.

(** The fields of [TransactionPool] that [update.go] touches.  The lock
    [tp.mu] is not a field here: its operations are recorded as events. *)
Record TransactionPool := mkTransactionPool {
  knownObjects : gmap ObjectID TransactionSetID;
  transactionSets : gmap TransactionSetID (list types.Transaction);
  transactionSetDiffs : gmap TransactionSetID modules.ConsensusChange;
  transactionListSize : Z;
  blockHeight : types.BlockHeight;
  transactionHeights : gmap types.TransactionID types.BlockHeight;
  dbTx : DB;
  log : list string;
}.

Definition set_blockHeight (f : types.BlockHeight → types.BlockHeight)
    (tp : TransactionPool) : TransactionPool :=
  mkTransactionPool (knownObjects tp) (transactionSets tp)
    (transactionSetDiffs tp) (transactionListSize tp) (f (blockHeight tp))
    (transactionHeights tp) (dbTx tp) (log tp).

Definition set_transactionHeights
    (f : gmap types.TransactionID types.BlockHeight →
         gmap types.TransactionID types.BlockHeight)
    (tp : TransactionPool) : TransactionPool :=
  mkTransactionPool (knownObjects tp) (transactionSets tp)
    (transactionSetDiffs tp) (transactionListSize tp) (blockHeight tp)
    (f (transactionHeights tp)) (dbTx tp) (log tp).

Definition set_dbTx (db : DB) (tp : TransactionPool) : TransactionPool :=
  mkTransactionPool (knownObjects tp) (transactionSets tp)
    (transactionSetDiffs tp) (transactionListSize tp) (blockHeight tp)
    (transactionHeights tp) db (log tp).

(** [tp.log.Println(msg, err)] *)
Definition Println (msg : string) (err : error) (tp : TransactionPool)
    : TransactionPool :=
  mkTransactionPool (knownObjects tp) (transactionSets tp)
    (transactionSetDiffs tp) (transactionListSize tp) (blockHeight tp)
    (transactionHeights tp) (dbTx tp) (log tp ++ [msg +:+ " " +:+ err]).

(** The in-memory pool state: everything but the durable store and the
    log. *)
Definition memory (tp : TransactionPool) :=
  (knownObjects tp, transactionSets tp, transactionSetDiffs tp,
   transactionListSize tp, blockHeight tp, transactionHeights tp).

(** *** Observable events

    Calls that leave the pool object: the operations of the lock [tp.mu],
    the calls to the Admission Gate and the subscriber notification. *)
Inductive Event :=
| EvLock
| EvUnlock
| EvDemote
| EvDemotedUnlock
| EvAccept (ts : list types.Transaction) (try : TryFn) (err : option error)
| EvNotify (seen : TransactionPool).

(** *** The monad of pool methods: state passing plus an event log *)

Definition M (A : Type) : Type :=
  TransactionPool → A * TransactionPool * list Event.

#[global] Instance M_ret : MRet M := λ A a tp, (a, tp, []).
#[global] Instance M_bind : MBind M := λ A B k m tp,
  let '(a, tp1, e1) := m tp in
  let '(b, tp2, e2) := k a tp1 in
  (b, tp2, e1 ++ e2).

Definition get : M TransactionPool := λ tp, (tp, tp, []).
Definition modify (f : TransactionPool → TransactionPool) : M unit :=
  λ tp, (tt, f tp, []).
Definition emit (e : Event) : M unit := λ tp, (tt, tp, [e]).

Definition eval {A} (m : M A) (tp : TransactionPool) : A := (m tp).1.1.
Definition exec {A} (m : M A) (tp : TransactionPool) : TransactionPool :=
  (m tp).1.2.
Definition trace {A} (m : M A) (tp : TransactionPool) : list Event :=
  (m tp).2.

(** [for _, x := range l { body x }] *)
Fixpoint forM_ {A} (l : list A) (body : A → M unit) : M unit :=
  match l with
  | [] => mret tt
  | x :: l => body x ;; forM_ l body
  end.

(** A [range] loop that threads a local variable. *)
Fixpoint foldM {A B} (body : B → A → M B) (b : B) (l : list A) : M B :=
  match l with
  | [] => mret b
  | x :: l => b' ← body b x; foldM body b' l
  end.

(** [for i := n - 1; i >= 0; i-- { body i }] *)
Fixpoint forDown (n : nat) (body : nat → M unit) : M unit :=
  match n with
  | O => mret tt
  | S i => body i ;; forDown i body
  end.

(** purge removes all transactions from the transaction pool. *)
Definition purge (tp : TransactionPool) : TransactionPool :=
  mkTransactionPool ∅ ∅ ∅ 0 (blockHeight tp) (transactionHeights tp)
    (dbTx tp) (log tp).


(** *** Collaborators of [update.go]

    The methods of the durable store and the Admission Gate are defined in
    other files of the package; [ProcessConsensusChange] is embedded over
    any implementation of them. *)

(** Modelled from the spec: the Durable Ledger Mirror, "markConfirmed,
    markUnconfirmed, putLastChangeID, putHeight -- all fallible".  Each
    method takes the store and returns an error or [None], and the store
    it leaves. *)
Record Database := mkDatabase {
  deleteTransaction : DB → types.TransactionID → option error * DB;
  addTransaction : DB → types.TransactionID → option error * DB;
  putRecentConsensusChange :
    DB → modules.ConsensusChangeID → option error * DB;
  putBlockHeight : DB → types.BlockHeight → option error * DB;
}.

(** The type of [tp.acceptTransactionSet]: it may read and write the whole
    pool and returns an error or [None]. *)
Abbreviation Gate :=
  (list types.Transaction → TryFn → TransactionPool →
   option error * TransactionPool) (only parsing).

(** The order in which a [range] over the map [tp.transactionSets] visits
    its values: Go leaves it unspecified, so it is a parameter. *)
Abbreviation RangeOrder :=
  (gmap TransactionSetID (list types.Transaction) →
   list (list types.Transaction)) (only parsing).

Definition range_ok (rangeSets : RangeOrder) : Prop :=
  ∀ m, rangeSets m ≡ₚ (map_to_list m).*2.

Section update.

Context (db : Database) (acceptTransactionSet : Gate)
        (rangeSets : RangeOrder).

(** A call of a store method on [tp.dbTx]. *)
Definition withDB (op : DB → option error * DB) : M (option error) :=
  λ tp, let '(err, d) := op (dbTx tp) in (err, set_dbTx d tp, []).

(** [if err != nil { tp.log.Println(msg, err) }] *)
Definition logIfErr (msg : string) (err : option error) : M unit :=
  match err with
  | Some e => modify (Println msg e)
  | None => mret tt
  end.

(** A call [tp.acceptTransactionSet(ts, try)], recorded as an event. *)
Definition accept (ts : list types.Transaction) (try : TryFn)
    : M (option error) :=
  λ tp, let '(err, tp') := acceptTransactionSet ts try tp in
        (err, tp', [EvAccept ts try err]).

(** Lines 26-51: update the database of confirmed transactions. *)
Definition updateDatabase (cc : modules.ConsensusChange) : M unit :=
  forM_ (modules.RevertedBlocks cc) (λ block,
    modify (set_blockHeight types.decr) ;;
    forM_ (types.Transactions block) (λ txn,
      err ← withDB (λ d, deleteTransaction db d (types.ID txn));
      logIfErr "ERROR: could not delete a transaction:" err)) ;;
  forM_ (modules.AppliedBlocks cc) (λ block,
    modify (set_blockHeight types.incr) ;;
    forM_ (types.Transactions block) (λ txn,
      err ← withDB (λ d, addTransaction db d (types.ID txn));
      logIfErr "ERROR: could not add a transaction:" err)) ;;
  err ← withDB (λ d, putRecentConsensusChange db d (modules.ID cc));
  logIfErr "ERROR: could not update the recent consensus change:" err ;;
  tp ← get;
  err ← withDB (λ d, putBlockHeight db d (blockHeight tp));
  logIfErr "ERROR: could not update the block height:" err.

(** Lines 58-63: the IDs of the transactions of the applied blocks. *)
Definition scanApplied (cc : modules.ConsensusChange)
    : gset types.TransactionID :=
  foldl (λ txids block,
           foldl (λ txids txn, {[types.ID txn]} ∪ txids)
                 txids (types.Transactions block))
        ∅ (modules.AppliedBlocks cc).

(** Lines 73-79: the copy of one set without the confirmed
    transactions. *)
Definition newTSet (txids : gset types.TransactionID)
    (tSet : list types.Transaction) : list types.Transaction :=
  foldl (λ newTSet txn,
           if decide (types.ID txn ∈ txids) then newTSet
           else newTSet ++ [txn])
        [] tSet.

(** Lines 66-81: save the unconfirmed transaction sets into a list. *)
Definition saveUnconfirmedSets (txids : gset types.TransactionID)
    (sets : list (list types.Transaction))
    : list (list types.Transaction) :=
  foldl (λ unconfirmedSets tSet, unconfirmedSets ++ [newTSet txids tSet])
        [] sets.

(** Lines 91-96: the age check of one transaction.  A missing key reads
    as [(0, false)]; the subtraction is the one of [uint64]. *)
Definition pruneTxn (validTxns : list types.Transaction)
    (txn : types.Transaction) : M (list types.Transaction) :=
  tp ← get;
  let seenHeight := default 0 (transactionHeights tp !! types.ID txn) in
  let seen := bool_decide (is_Some (transactionHeights tp !! types.ID txn)) in
  if (types.sub (blockHeight tp) seenHeight <=? maxTxnAge) || negb seen
  then mret (validTxns ++ [txn])
  else modify (set_transactionHeights (delete (types.ID txn))) ;;
       mret validTxns.

(** Lines 88-99: prune transactions older than maxTxnAge. *)
Definition pruneSets (unconfirmedSets : list (list types.Transaction))
    : M (list (list types.Transaction)) :=
  foldM (λ unconfirmedSets '(i, tSet),
           validTxns ← foldM pruneTxn [] tSet;
           mret (<[i := validTxns]> unconfirmedSets))
        unconfirmedSets (imap pair unconfirmedSets).

(** Lines 103-116: re-add the transactions of the reverted blocks. *)
Definition readdReverted (cc : modules.ConsensusChange)
    (txids : gset types.TransactionID) : M unit :=
  forDown (length (modules.RevertedBlocks cc)) (λ i,
    match modules.RevertedBlocks cc !! i with
    | Some block =>
        forM_ (types.Transactions block) (λ txn,
          if decide (types.ID txn ∈ txids) then mret tt
          else accept [txn] (modules.TryTransactionSet cc) ;; mret tt)
    | None => mret tt
    end).

(** Lines 134-139: re-admission of one surviving transaction. *)
Definition readdTxn (cc : modules.ConsensusChange)
    (txn : types.Transaction) : M unit :=
  err ← accept [txn] (modules.TryTransactionSet cc);
  match err with
  | Some _ => modify (set_transactionHeights (delete (types.ID txn)))
  | None => mret tt
  end.

(** Lines 132-141: add the unconfirmed sets back to the pool. *)
Definition readdUnconfirmed (cc : modules.ConsensusChange)
    (unconfirmedSets : list (list types.Transaction)) : M unit :=
  forM_ unconfirmedSets (λ set, forM_ set (readdTxn cc)).

(** Modelled from the spec: [tp.updateSubscribersTransactions],
    "notifySubscribers(current pool contents)": the subscribers are shown
    the pool as it is at the call. *)
Definition updateSubscribersTransactions : M unit :=
  tp ← get; emit (EvNotify tp).

(** ProcessConsensusChange gets called to inform the transaction pool of
    changes to the consensus set. *)
Definition ProcessConsensusChange (cc : modules.ConsensusChange)
    : M unit :=
  emit EvLock ;;
  updateDatabase cc ;;
  let txids := scanApplied cc in
  tp ← get;
  let unconfirmedSets :=
    saveUnconfirmedSets txids (rangeSets (transactionSets tp)) in
  modify purge ;;
  unconfirmedSets ← pruneSets unconfirmedSets;
  readdReverted cc txids ;;
  readdUnconfirmed cc unconfirmedSets ;;
  emit EvDemote ;;
  updateSubscribersTransactions ;;
  emit EvDemotedUnlock.

End update.

(** *** The contract of the Admission Gate *)

(** Modelled from the spec: [acceptTransactionSet] "on failure, leaves
    state unchanged and returns an error". *)
Definition gate_failure_unchanged (g : Gate) : Prop :=
  ∀ ts try tp e tp', g ts try tp = (Some e, tp') → tp' = tp.

(** Modelled from the spec: [acceptTransactionSet] "on success ... records
    the set": a set stored after a call was stored before it, or is the
    offered set and the call succeeded. *)
Definition gate_records_offered (g : Gate) : Prop :=
  ∀ ts try tp sid set,
    transactionSets (g ts try tp).2 !! sid = Some set →
    (set = ts ∧ (g ts try tp).1 = None) ∨
    transactionSets tp !! sid = Some set.

(** Modelled from the spec: "BlockHeight [is] mutated exclusively by the
    Reconciliation Engine and the purge operation": the gate leaves it as
    it is. *)
Definition gate_keeps_height (g : Gate) : Prop :=
  ∀ ts try tp, blockHeight (g ts try tp).2 = blockHeight tp.

(** A gate that looks at the in-memory state only: its verdict and its
    effect on the in-memory state are the same for two pools that differ
    in the durable store or in the log.  The spec does not say this of the
    gate, which is handed the whole pool, [tp.dbTx] included. *)
Definition gate_memory_only (g : Gate) : Prop :=
  ∀ ts try tp1 tp2, memory tp1 = memory tp2 →
    (g ts try tp1).1 = (g ts try tp2).1 ∧
    memory (g ts try tp1).2 = memory (g ts try tp2).2.

(** *** Sample collaborators, for evaluating the code on examples *)

(** A store whose writes all succeed. *)
Definition idealDB : Database :=
  mkDatabase
    (λ d id, (None, mkDB (confirmed d ∖ {[id]}) (recentChange d)
                         (storedHeight d)))
    (λ d id, (None, mkDB ({[id]} ∪ confirmed d) (recentChange d)
                         (storedHeight d)))
    (λ d c, (None, mkDB (confirmed d) (Some c) (storedHeight d)))
    (λ d h, (None, mkDB (confirmed d) (recentChange d) (Some h))).

(** A store whose writes all fail and change nothing. *)
Definition failingDB : Database :=
  mkDatabase
    (λ d _, (Some "write failed", d)) (λ d _, (Some "write failed", d))
    (λ d _, (Some "write failed", d)) (λ d _, (Some "write failed", d)).

(** A content-derived identifier of a transaction set. *)
Definition sampleSetID (ts : list types.Transaction) : TransactionSetID :=
  Npos (encode (types.ID <$> ts)).

(** Modelled from the spec: a gate that rejects a set claiming an object
    some pooled set claims, asks the validation capability, and "on
    success, mutates Pool State Store (claims objects, records the set,
    updates size counter, records first-seen height for new
    transactions)". *)
Definition sampleGate : Gate := λ ts try tp,
  let objs := concat (types.Objects <$> ts) in
  if existsb (λ oid, bool_decide (is_Some (knownObjects tp !! oid))) objs
  then (Some "conflicting transaction set", tp)
  else match try ts with
       | inr e => (Some e, tp)
       | inl diff =>
           let sid := sampleSetID ts in
           (None,
            mkTransactionPool
              (foldl (λ m oid, <[oid := sid]> m) (knownObjects tp) objs)
              (<[sid := ts]> (transactionSets tp))
              (<[sid := diff]> (transactionSetDiffs tp))
              (transactionListSize tp + Z.of_nat (length ts))
              (blockHeight tp)
              (foldl (λ m txn,
                        match m !! types.ID txn with
                        | Some _ => m
                        | None => <[types.ID txn := blockHeight tp]> m
                        end)
                     (transactionHeights tp) ts)
              (dbTx tp) (log tp))
       end.

(** Modelled from the spec: the gate of [sampleGate], which first refuses
    a set holding a transaction that the durable store, "a
    crash-recoverable record of which transactions are confirmed", records
    as confirmed.  It reads [tp.dbTx]; the spec leaves open whether the
    gate does. *)
Definition dbGate : Gate := λ ts try tp,
  if existsb (λ txn, bool_decide (types.ID txn ∈ confirmed (dbTx tp))) ts
  then (Some "transaction already confirmed", tp)
  else sampleGate ts try tp.

(** The [range] order used in examples: the order of [map_to_list]. *)
Definition sampleRange : RangeOrder := λ m, (map_to_list m).*2.

(** The pool at start-up. *)
Definition emptyPool : TransactionPool :=
  mkTransactionPool ∅ ∅ ∅ 0 0 ∅ (mkDB ∅ None None) [].

(** The empty change, returned as the diff of an accepted set. *)
Definition noChange : modules.ConsensusChange :=
  modules.mkConsensusChange [] [] 0 (λ _, inr "unused").

(** A change whose validation capability accepts every set. *)
Definition change (reverted applied : list types.Block)
    (id : modules.ConsensusChangeID) : modules.ConsensusChange :=
  modules.mkConsensusChange reverted applied id (λ _, inl noChange).

(** The same change with a validation capability that rejects every
    set. *)
Definition rejectingChange (reverted applied : list types.Block)
    (id : modules.ConsensusChangeID) : modules.ConsensusChange :=
  modules.mkConsensusChange reverted applied id
    (λ _, inr "invalid transaction set").

(** Processing a sequence of changes, one after the other. *)
Definition processAll (db : Database) (g : Gate) (rangeSets : RangeOrder)
    (ccs : list modules.ConsensusChange) (tp : TransactionPool)
    : TransactionPool :=
  foldl (λ tp cc, exec (ProcessConsensusChange db g rangeSets cc) tp) tp ccs.

(** The net height of a sequence of changes: +1 per applied block, -1 per
    reverted block. *)
Definition netHeight (ccs : list modules.ConsensusChange) : Z :=
  foldr (λ cc n,
           Z.of_nat (length (modules.AppliedBlocks cc))
           - Z.of_nat (length (modules.RevertedBlocks cc)) + n)
        0 ccs.

(** *** Derived notions used to state the properties *)

(** The decision of lines 91-92, as a function of the pool. *)
Definition keptByAge (tp : TransactionPool) (txn : types.Transaction)
    : bool :=
  (types.sub (blockHeight tp)
     (default 0 (transactionHeights tp !! types.ID txn)) <=? maxTxnAge)
  || negb (bool_decide (is_Some (transactionHeights tp !! types.ID txn))).

Section phases.

Context (db : Database) (g : Gate) (rangeSets : RangeOrder).
Context (cc : modules.ConsensusChange) (tp : TransactionPool).

(** The pool after lines 26-51. *)
Definition afterUpdate : TransactionPool := exec (updateDatabase db cc) tp.

(** The list built by lines 66-81. *)
Definition savedSets : list (list types.Transaction) :=
  saveUnconfirmedSets (scanApplied cc)
    (rangeSets (transactionSets afterUpdate)).

(** The pool and the list after lines 85-99. *)
Definition afterPrune : TransactionPool :=
  exec (pruneSets savedSets) (purge afterUpdate).
Definition prunedSets : list (list types.Transaction) :=
  eval (pruneSets savedSets) (purge afterUpdate).

(** The pool after lines 103-116. *)
Definition afterReverted : TransactionPool :=
  exec (readdReverted g cc (scanApplied cc)) afterPrune.

End phases.

(** Two methods without result agree when they leave the same pool and
    make the same calls. *)
Definition same_run (m1 m2 : M unit) : Prop :=
  ∀ tp, exec m1 tp = exec m2 tp ∧ trace m1 tp = trace m2 tp.

(** The transactions the loop offers: those of the reverted blocks, the
    blocks taken last to first, whose ID is in no applied block. *)
Definition revertedCandidates (cc : modules.ConsensusChange)
    : list types.Transaction :=
  filter (λ txn, types.ID txn ∉ scanApplied cc)
    (concat (types.Transactions <$> reverse (modules.RevertedBlocks cc))).

(** An event is a gate call with a set of length one, or no gate call. *)
Definition singleton_call (e : Event) : Prop :=
  match e with
  | EvAccept ts _ _ => length ts = 1%nat
  | _ => True
  end.

(** Every stored set is a singleton that the gate accepted in a call
    recorded in [tr]. *)
Definition stored_were_admitted (cc : modules.ConsensusChange)
    (tp : TransactionPool) (tr : list Event)
    : Prop :=
  ∀ sid set, transactionSets tp !! sid = Some set →
    ∃ txn, set = [txn] ∧
           EvAccept [txn] (modules.TryTransactionSet cc) None ∈ tr.

(** The in-memory state apart from the height. *)
Definition pooled (tp : TransactionPool) :=
  (knownObjects tp, transactionSets tp, transactionSetDiffs tp,
   transactionListSize tp, transactionHeights tp).


(** The transactions of a list of blocks, block after block. *)
Definition blockTxns (blocks : list types.Block) : list types.Transaction :=
  concat (types.Transactions <$> blocks).

(** The store that a run of the writes of lines 26-51 leaves, one write
    after the other whatever each returns: a deletion per transaction of
    the reverted blocks, an addition per transaction of the applied
    blocks, the change ID, and the height [h]. *)
Definition storeWrites (db : Database) (cc : modules.ConsensusChange)
    (h : types.BlockHeight) (d : DB) : DB :=
  let d1 := foldl (λ d txn, (deleteTransaction db d (types.ID txn)).2)
              d (blockTxns (modules.RevertedBlocks cc)) in
  let d2 := foldl (λ d txn, (addTransaction db d (types.ID txn)).2)
              d1 (blockTxns (modules.AppliedBlocks cc)) in
  let d3 := (putRecentConsensusChange db d2 (modules.ID cc)).2 in
  (putBlockHeight db d3 h).2.

(** A store whose four methods return an error on every call. *)
Definition store_always_fails (db : Database) : Prop :=
  (∀ d id, (deleteTransaction db d id).1 ≠ None) ∧
  (∀ d id, (addTransaction db d id).1 ≠ None) ∧
  (∀ d c, (putRecentConsensusChange db d c).1 ≠ None) ∧
  (∀ d h, (putBlockHeight db d h).1 ≠ None).

(** A gate that, handed the validation capability of [cc], rejects every
    set and leaves the pool as it is. *)
Definition gate_rejects_all (g : Gate) (cc : modules.ConsensusChange)
    : Prop :=
  ∀ ts tp, ∃ e, g ts (modules.TryTransactionSet cc) tp = (Some e, tp).

(** Two pools that differ at most in the fields [purge] resets. *)
Definition same_but_purged (tp1 tp2 : TransactionPool) : Prop :=
  transactionSets tp1 = transactionSets tp2 ∧
  blockHeight tp1 = blockHeight tp2 ∧
  transactionHeights tp1 = transactionHeights tp2 ∧
  dbTx tp1 = dbTx tp2 ∧
  log tp1 = log tp2.

(** *** Example pools and changes *)

Definition txnA : types.Transaction := types.mkTransaction 1 [10%N].
Definition txnB : types.Transaction := types.mkTransaction 2 [20%N].
Definition txnC : types.Transaction := types.mkTransaction 3 [30%N].

Definition emptyBlock : types.Block := types.mkBlock [].

(** A pool at height [h] holding the singleton set [{txnA}], first seen at
    height [seen]. *)
Definition poolWithA (h seen : Z) : TransactionPool :=
  mkTransactionPool {[10%N := sampleSetID [txnA]]}
    {[sampleSetID [txnA] := [txnA]]} {[sampleSetID [txnA] := noChange]}
    1 h {[1%N := seen]} (mkDB ∅ None None) [].

(** A reorganisation to a chain that is one block shorter: two blocks
    reverted, one applied. *)
Definition shorterChain : modules.ConsensusChange :=
  change [emptyBlock; emptyBlock] [emptyBlock] 7.

(** A pool holding the set [[txnB; txnC]], both first seen at height 5,
    and a change that reverts a block that held [txnA] and applies one
    that holds [txnB]. *)
Definition poolWithBC : TransactionPool :=
  mkTransactionPool {[20%N := sampleSetID [txnB; txnC];
                      30%N := sampleSetID [txnB; txnC]]}
    {[sampleSetID [txnB; txnC] := [txnB; txnC]]}
    {[sampleSetID [txnB; txnC] := noChange]}
    2 5 {[2%N := 5; 3%N := 5]} (mkDB {[1%N]} None (Some 5)) [].

Definition swapAForB : modules.ConsensusChange :=
  change [types.mkBlock [txnA]] [types.mkBlock [txnB]] 7.

(** [poolWithBC] with stale claims, diffs and size. *)
Definition poolWithBC_stale : TransactionPool :=
  mkTransactionPool {[99%N := 7%N]} (transactionSets poolWithBC)
    ∅ 40 5 {[2%N := 5; 3%N := 5]} (mkDB {[1%N]} None (Some 5)) [].

(** * Properties *)

(** ** Running the monad *)

Section monad_facts.

Context {A B : Type}.
Implicit Types (m : M A) (k : A → M B) (tp : TransactionPool).

Lemma run_bind m k tp :
  (m ≫= k) tp =
  (eval (k (eval m tp)) (exec m tp),
   exec (k (eval m tp)) (exec m tp),
   trace m tp ++ trace (k (eval m tp)) (exec m tp)).
Proof.
  unfold mbind, M_bind, eval, exec, trace.
  destruct (m tp) as [[a tp1] e1]; simpl.
  by destruct (k a tp1) as [[b tp2] e2].
Qed.

Lemma exec_bind m k tp :
  exec (m ≫= k) tp = exec (k (eval m tp)) (exec m tp).
Proof. unfold exec at 1. by rewrite run_bind. Qed.

Lemma eval_bind m k tp :
  eval (m ≫= k) tp = eval (k (eval m tp)) (exec m tp).
Proof. unfold eval at 1. by rewrite run_bind. Qed.

Lemma trace_bind m k tp :
  trace (m ≫= k) tp = trace m tp ++ trace (k (eval m tp)) (exec m tp).
Proof. unfold trace at 1. by rewrite run_bind. Qed.

End monad_facts.

Lemma eval_ret {A} (a : A) tp : eval (mret a) tp = a.
Proof. done. Qed.
Lemma exec_ret {A} (a : A) tp : exec (mret a) tp = tp.
Proof. done. Qed.
Lemma trace_ret {A} (a : A) tp : trace (mret a : M A) tp = [].
Proof. done. Qed.
Lemma exec_modify f tp : exec (modify f) tp = f tp.
Proof. done. Qed.
Lemma trace_modify f tp : trace (modify f) tp = [].
Proof. done. Qed.
Lemma exec_emit e tp : exec (emit e) tp = tp.
Proof. done. Qed.
Lemma trace_emit e tp : trace (emit e) tp = [e].
Proof. done. Qed.
Lemma exec_get tp : exec get tp = tp.
Proof. done. Qed.
Lemma eval_get tp : eval get tp = tp.
Proof. done. Qed.
Lemma trace_get tp : trace get tp = [].
Proof. done. Qed.

Ltac run :=
  repeat (rewrite ?exec_bind, ?eval_bind, ?trace_bind, ?exec_ret,
            ?trace_ret, ?exec_modify, ?trace_modify, ?exec_emit,
            ?trace_emit, ?exec_get, ?eval_get, ?trace_get;
          progress simpl).

(** ** Loops *)

Section loop_facts.

Context {A : Type}.
Implicit Types (l : list A) (body : A → M unit) (tp : TransactionPool).

Lemma exec_forM_cons x l body tp :
  exec (forM_ (x :: l) body) tp = exec (forM_ l body) (exec (body x) tp).
Proof. simpl. by rewrite exec_bind. Qed.

Lemma trace_forM_cons x l body tp :
  trace (forM_ (x :: l) body) tp =
  trace (body x) tp ++ trace (forM_ l body) (exec (body x) tp).
Proof. simpl. by rewrite trace_bind. Qed.

Lemma exec_forM_app l1 l2 body tp :
  exec (forM_ (l1 ++ l2) body) tp =
  exec (forM_ l2 body) (exec (forM_ l1 body) tp).
Proof.
  revert tp. induction l1 as [|x l1 IH]; intros tp; [done|].
  rewrite <- app_comm_cons, !exec_forM_cons. apply IH.
Qed.

Lemma trace_forM_app l1 l2 body tp :
  trace (forM_ (l1 ++ l2) body) tp =
  trace (forM_ l1 body) tp ++ trace (forM_ l2 body) (exec (forM_ l1 body) tp).
Proof.
  revert tp. induction l1 as [|x l1 IH]; intros tp; [done|].
  rewrite <- app_comm_cons, !trace_forM_cons, exec_forM_cons, IH.
  by rewrite app_assoc.
Qed.

(** A property of the pool kept by every iteration is kept by the
    loop. *)
Lemma forM_inv (P : TransactionPool → Prop) l body :
  (∀ x tp, x ∈ l → P tp → P (exec (body x) tp)) →
  ∀ tp, P tp → P (exec (forM_ l body) tp).
Proof.
  induction l as [|x l IH]; intros Hbody tp HP; [done|].
  rewrite exec_forM_cons. apply IH.
  - intros y tp' Hy. apply Hbody. by right.
  - apply Hbody; [by left|done].
Qed.

(** A property of events that holds of every iteration holds of the
    loop. *)
Lemma forM_trace_Forall (Q : Event → Prop) l body :
  (∀ x tp, x ∈ l → Forall Q (trace (body x) tp)) →
  ∀ tp, Forall Q (trace (forM_ l body) tp).
Proof.
  induction l as [|x l IH]; intros Hbody tp; [by constructor|].
  rewrite trace_forM_cons. apply Forall_app. split.
  - apply Hbody. by left.
  - apply IH. intros y tp' Hy. apply Hbody. by right.
Qed.

End loop_facts.

Lemma foldM_inv {A B} (P : TransactionPool → Prop) (body : B → A → M B) l :
  (∀ b x tp, x ∈ l → P tp → P (exec (body b x) tp)) →
  ∀ b tp, P tp → P (exec (foldM body b l) tp).
Proof.
  induction l as [|x l IH]; intros Hbody b tp HP; [done|].
  simpl. rewrite exec_bind. apply IH.
  - intros b' y tp' Hy. apply Hbody. by right.
  - apply Hbody; [by left|done].
Qed.

Lemma foldM_trace_Forall {A B} (Q : Event → Prop) (body : B → A → M B) l :
  (∀ b x tp, x ∈ l → Forall Q (trace (body b x) tp)) →
  ∀ b tp, Forall Q (trace (foldM body b l) tp).
Proof.
  induction l as [|x l IH]; intros Hbody b tp; [by constructor|].
  simpl. rewrite trace_bind. apply Forall_app. split.
  - apply Hbody. by left.
  - apply IH. intros b' y tp' Hy. apply Hbody. by right.
Qed.

Lemma forDown_inv (P : TransactionPool → Prop) n (body : nat → M unit) :
  (∀ i tp, (i < n)%nat → P tp → P (exec (body i) tp)) →
  ∀ tp, P tp → P (exec (forDown n body) tp).
Proof.
  induction n as [|n IH]; intros Hbody tp HP; [done|].
  simpl. rewrite exec_bind. apply IH.
  - intros i tp' Hi. apply Hbody. lia.
  - apply Hbody; [lia|done].
Qed.

Lemma forDown_trace_Forall (Q : Event → Prop) n (body : nat → M unit) :
  (∀ i tp, (i < n)%nat → Forall Q (trace (body i) tp)) →
  ∀ tp, Forall Q (trace (forDown n body) tp).
Proof.
  induction n as [|n IH]; intros Hbody tp; [by constructor|].
  simpl. rewrite trace_bind. apply Forall_app. split.
  - apply Hbody. lia.
  - apply IH. intros i tp' Hi. apply Hbody. lia.
Qed.

(** ** [uint64] arithmetic *)

Lemma wrap64_idemp z : types.wrap64 (types.wrap64 z) = types.wrap64 z.
Proof. unfold types.wrap64. by rewrite Zmod_mod. Qed.

Lemma wrap64_add_l a b :
  types.wrap64 (types.wrap64 a + b) = types.wrap64 (a + b).
Proof. unfold types.wrap64. by rewrite Zplus_mod_idemp_l. Qed.

Lemma wrap64_small z : 0 ≤ z < 2 ^ 64 → types.wrap64 z = z.
Proof. intros. unfold types.wrap64. by apply Z.mod_small. Qed.

Lemma wrap64_range z : 0 ≤ types.wrap64 z < 2 ^ 64.
Proof. unfold types.wrap64. by apply Z.mod_pos_bound. Qed.

(** ** C6: purge *)


(** ** Steps that touch only the durable store and the log *)

Section store_steps.

Context (op : DB → option error * DB) (msg : string).

Lemma exec_withDB tp : exec (withDB op) tp = set_dbTx (op (dbTx tp)).2 tp.
Proof. unfold exec, withDB. by destruct (op (dbTx tp)). Qed.

Lemma eval_withDB tp : eval (withDB op) tp = (op (dbTx tp)).1.
Proof. unfold eval, withDB. by destruct (op (dbTx tp)). Qed.

Lemma trace_withDB tp : trace (withDB op) tp = [].
Proof. unfold trace, withDB. by destruct (op (dbTx tp)). Qed.

Lemma trace_logIfErr err tp : trace (logIfErr msg err) tp = [].
Proof. by destruct err. Qed.

Lemma memory_logIfErr err tp :
  memory (exec (logIfErr msg err) tp) = memory tp.
Proof. by destruct err. Qed.

(** A store write followed by the logging of its error leaves the
    in-memory state alone and makes no call outside the pool. *)
Lemma memory_store_step tp :
  memory (exec (err ← withDB op; logIfErr msg err) tp) = memory tp.
Proof. by rewrite exec_bind, memory_logIfErr, exec_withDB. Qed.

Lemma trace_store_step tp :
  trace (err ← withDB op; logIfErr msg err) tp = [].
Proof. by rewrite trace_bind, trace_withDB, trace_logIfErr. Qed.

End store_steps.

Lemma blockHeight_logIfErr msg err tp :
  blockHeight (exec (logIfErr msg err) tp) = blockHeight tp.
Proof. by destruct err. Qed.

Lemma memory_blockHeight tp1 tp2 :
  memory tp1 = memory tp2 → blockHeight tp1 = blockHeight tp2.
Proof. unfold memory. by intros [=]. Qed.

Lemma memory_transactionHeights tp1 tp2 :
  memory tp1 = memory tp2 → transactionHeights tp1 = transactionHeights tp2.
Proof. unfold memory. by intros [=]. Qed.

Lemma memory_transactionSets tp1 tp2 :
  memory tp1 = memory tp2 → transactionSets tp1 = transactionSets tp2.
Proof. unfold memory. by intros [=]. Qed.

(** ** C3: the height counter *)

Lemma iter_decr n h :
  0 ≤ h < 2 ^ 64 → Nat.iter n types.decr h = types.wrap64 (h - Z.of_nat n).
Proof.
  intros Hh. induction n as [|n IH].
  - simpl. rewrite Z.sub_0_r. by rewrite wrap64_small.
  - simpl. rewrite IH. unfold types.decr.
    replace (types.wrap64 (h - Z.of_nat n) - 1)
      with (types.wrap64 (h - Z.of_nat n) + -1) by lia.
    rewrite wrap64_add_l. f_equal. lia.
Qed.

Lemma iter_incr n h :
  0 ≤ h < 2 ^ 64 → Nat.iter n types.incr h = types.wrap64 (h + Z.of_nat n).
Proof.
  intros Hh. induction n as [|n IH].
  - simpl. rewrite Z.add_0_r. by rewrite wrap64_small.
  - simpl. rewrite IH. unfold types.incr.
    rewrite wrap64_add_l. f_equal. lia.
Qed.

(** A loop over blocks that steps the height once per block, and whose
    inner loop leaves it alone, steps it [length blocks] times. *)
Lemma blockHeight_block_loop (f : Z → Z) (inner : types.Block → M unit)
    blocks :
  (∀ block tp, blockHeight (exec (inner block) tp) = blockHeight tp) →
  ∀ tp,
    blockHeight
      (exec (forM_ blocks (λ block,
               modify (set_blockHeight f) ;; inner block)) tp)
    = Nat.iter (length blocks) f (blockHeight tp).
Proof.
  intros Hinner. induction blocks as [|b blocks IH]; intros tp; [done|].
  rewrite exec_forM_cons, IH, exec_bind, Hinner.
  symmetry. apply (Nat.iter_succ_r (length blocks) f).
Qed.

Section height.

Context (db : Database) (acceptTransactionSet : Gate)
        (rangeSets : RangeOrder).

Lemma blockHeight_store_loop (op : types.TransactionID → DB → option error * DB)
    msg (txns : list types.Transaction) tp :
  blockHeight
    (exec (forM_ txns (λ txn,
             err ← withDB (op (types.ID txn)); logIfErr msg err)) tp)
  = blockHeight tp.
Proof.
  apply (forM_inv (λ tp', blockHeight tp' = blockHeight tp)); [|done].
  intros txn tp' _ <-. apply memory_blockHeight, memory_store_step.
Qed.

Lemma blockHeight_updateDatabase cc tp :
  0 ≤ blockHeight tp < 2 ^ 64 →
  blockHeight (exec (updateDatabase db cc) tp)
  = types.wrap64 (blockHeight tp
                  + Z.of_nat (length (modules.AppliedBlocks cc))
                  - Z.of_nat (length (modules.RevertedBlocks cc))).
Proof.
  intros Hh. unfold updateDatabase.
  rewrite exec_bind.
  set (tp1 := exec (forM_ (modules.RevertedBlocks cc) _) tp).
  assert (blockHeight tp1
          = types.wrap64 (blockHeight tp
              - Z.of_nat (length (modules.RevertedBlocks cc)))) as H1.
  { subst tp1.
    rewrite (blockHeight_block_loop types.decr
               (λ block, forM_ (types.Transactions block) (λ txn,
                  err ← withDB (λ d, deleteTransaction db d (types.ID txn));
                  logIfErr "ERROR: could not delete a transaction:" err))).
    - by apply iter_decr.
    - intros block tp'.
      apply (blockHeight_store_loop (λ id d, deleteTransaction db d id)). }
  rewrite exec_bind.
  set (tp2 := exec (forM_ (modules.AppliedBlocks cc) _) tp1).
  assert (blockHeight tp2
          = types.wrap64 (blockHeight tp1
              + Z.of_nat (length (modules.AppliedBlocks cc)))) as H2.
  { subst tp2.
    rewrite (blockHeight_block_loop types.incr
               (λ block, forM_ (types.Transactions block) (λ txn,
                  err ← withDB (λ d, addTransaction db d (types.ID txn));
                  logIfErr "ERROR: could not add a transaction:" err))).
    - apply iter_incr. rewrite H1. apply wrap64_range.
    - intros block tp'.
      apply (blockHeight_store_loop (λ id d, addTransaction db d id)). }
  repeat (rewrite ?exec_bind, ?exec_get, ?exec_withDB,
            ?blockHeight_logIfErr; simpl).
  rewrite H2, H1, wrap64_add_l. f_equal. lia.
Qed.

End height.

(** ** Calls to the Admission Gate *)

Section gate_calls.

Context (g : Gate).

Lemma exec_accept ts try tp : exec (accept g ts try) tp = (g ts try tp).2.
Proof. unfold exec, accept. by destruct (g ts try tp). Qed.

Lemma eval_accept ts try tp : eval (accept g ts try) tp = (g ts try tp).1.
Proof. unfold eval, accept. by destruct (g ts try tp). Qed.

Lemma trace_accept ts try tp :
  trace (accept g ts try) tp = [EvAccept ts try (g ts try tp).1].
Proof. unfold trace, accept. by destruct (g ts try tp). Qed.

End gate_calls.

(** ** The age check of one transaction *)

Lemma exec_pruneTxn validTxns txn tp :
  exec (pruneTxn validTxns txn) tp =
  if keptByAge tp txn then tp
  else set_transactionHeights (delete (types.ID txn)) tp.
Proof.
  unfold pruneTxn, keptByAge. rewrite exec_bind, eval_get, exec_get.
  by destruct (_ || _).
Qed.

Lemma eval_pruneTxn validTxns txn tp :
  eval (pruneTxn validTxns txn) tp =
  if keptByAge tp txn then validTxns ++ [txn] else validTxns.
Proof.
  unfold pruneTxn, keptByAge. rewrite eval_bind, eval_get, exec_get.
  by destruct (_ || _).
Qed.

Lemma trace_pruneTxn validTxns txn tp :
  trace (pruneTxn validTxns txn) tp = [].
Proof.
  unfold pruneTxn. rewrite trace_bind, eval_get, exec_get.
  by destruct (_ || _).
Qed.

(** ** Frame properties of the later phases *)

Section frames.

Context (g : Gate).

(** A property of the pool that neither a deletion from
    [transactionHeights] nor a call to the gate disturbs. *)
Context (P : TransactionPool → Prop).
Context (P_delete : ∀ id tp,
           P tp → P (set_transactionHeights (delete id) tp)).

Lemma pruneSets_inv sets tp : P tp → P (exec (pruneSets sets) tp).
Proof.
  unfold pruneSets. apply foldM_inv. intros acc [i tSet] tp' _ HP.
  rewrite exec_bind. simpl.
  revert HP. generalize (@nil types.Transaction).
  revert tp'. induction tSet as [|txn tSet IH]; intros tp' v HP; [done|].
  simpl. rewrite exec_bind. apply IH.
  rewrite exec_pruneTxn. destruct (keptByAge tp' txn); auto.
Qed.

Context (P_gate : ∀ ts try tp, P tp → P (g ts try tp).2).

Lemma readdReverted_inv cc txids tp :
  P tp → P (exec (readdReverted g cc txids) tp).
Proof.
  unfold readdReverted. apply forDown_inv. intros i tp' _ HP.
  destruct (modules.RevertedBlocks cc !! i) as [block|]; [|done].
  revert HP. apply forM_inv. intros txn tp'' _ HP.
  case_decide; [done|].
  rewrite exec_bind, exec_ret, exec_accept. by apply P_gate.
Qed.

Lemma readdTxn_inv cc txn tp : P tp → P (exec (readdTxn g cc txn) tp).
Proof.
  intros HP. unfold readdTxn. rewrite exec_bind, eval_accept, exec_accept.
  destruct (g [txn] _ tp).1; simpl.
  - rewrite exec_modify. auto.
  - rewrite exec_ret. auto.
Qed.

Lemma readdUnconfirmed_inv cc sets tp :
  P tp → P (exec (readdUnconfirmed g cc sets) tp).
Proof.
  unfold readdUnconfirmed. apply forM_inv. intros set tp' _.
  apply forM_inv. intros txn tp'' _. apply readdTxn_inv.
Qed.

End frames.

Lemma Forall_False_nil {A} (l : list A) : Forall (λ _, False) l → l = [].
Proof. by destruct 1. Qed.

(** ** The phases of [ProcessConsensusChange] *)

Section phase_facts.

Context (db : Database) (g : Gate) (rangeSets : RangeOrder).
Context (cc : modules.ConsensusChange) (tp : TransactionPool).

Lemma exec_ProcessConsensusChange :
  exec (ProcessConsensusChange db g rangeSets cc) tp =
  exec (readdUnconfirmed g cc (prunedSets db rangeSets cc tp))
    (afterReverted db g rangeSets cc tp).
Proof.
  unfold ProcessConsensusChange.
  repeat (rewrite ?exec_bind, ?eval_bind, ?exec_emit, ?exec_get,
            ?eval_get, ?exec_modify; simpl).
  reflexivity.
Qed.

Lemma updateDatabase_silent tp' : trace (updateDatabase db cc) tp' = [].
Proof.
  unfold updateDatabase.
  assert (∀ (op : types.TransactionID → DB → option error * DB) f msg
            blocks tp0,
    trace (forM_ blocks (λ block : types.Block,
             modify (set_blockHeight f) ;;
             forM_ (types.Transactions block) (λ txn,
               err ← withDB (op (types.ID txn)); logIfErr msg err)))
          tp0 = []) as Hloop.
  { intros op f msg blocks tp0. apply Forall_False_nil.
    apply forM_trace_Forall. intros block tp1 _.
    rewrite trace_bind, trace_modify. simpl.
    apply forM_trace_Forall. intros txn tp2 _.
    rewrite trace_store_step. constructor. }
  rewrite trace_bind.
  rewrite (Hloop (λ id d, deleteTransaction db d id)).
  rewrite trace_bind.
  rewrite (Hloop (λ id d, addTransaction db d id)).
  repeat (rewrite ?trace_bind, ?trace_withDB, ?trace_logIfErr,
            ?trace_get; simpl).
  reflexivity.
Qed.

Lemma trace_ProcessConsensusChange :
  trace (ProcessConsensusChange db g rangeSets cc) tp =
  [EvLock]
  ++ trace (pruneSets (savedSets db rangeSets cc tp))
       (purge (afterUpdate db cc tp))
  ++ trace (readdReverted g cc (scanApplied cc))
       (afterPrune db rangeSets cc tp)
  ++ trace (readdUnconfirmed g cc (prunedSets db rangeSets cc tp))
       (afterReverted db g rangeSets cc tp)
  ++ [EvDemote;
      EvNotify (exec (ProcessConsensusChange db g rangeSets cc) tp);
      EvDemotedUnlock].
Proof.
  rewrite exec_ProcessConsensusChange.
  unfold ProcessConsensusChange.
  repeat (rewrite ?trace_bind, ?exec_bind, ?eval_bind, ?exec_emit,
            ?trace_emit, ?exec_get, ?eval_get, ?trace_get, ?exec_modify,
            ?trace_modify, ?updateDatabase_silent; simpl).
  unfold updateSubscribersTransactions.
  repeat (rewrite ?trace_bind, ?exec_bind, ?eval_bind, ?exec_emit,
            ?trace_emit, ?exec_get, ?eval_get, ?trace_get; simpl).
  reflexivity.
Qed.

(** A property that deletions from [transactionHeights] and calls to the
    gate keep holds after the change if it holds after the purge. *)
Lemma ProcessConsensusChange_inv (P : TransactionPool → Prop) :
  (∀ id tp', P tp' → P (set_transactionHeights (delete id) tp')) →
  (∀ ts try tp', P tp' → P (g ts try tp').2) →
  P (purge (afterUpdate db cc tp)) →
  P (exec (ProcessConsensusChange db g rangeSets cc) tp).
Proof.
  intros Hdel Hgate HP. rewrite exec_ProcessConsensusChange.
  apply readdUnconfirmed_inv; [done..|].
  unfold afterReverted. apply readdReverted_inv; [done|].
  unfold afterPrune. by apply pruneSets_inv.
Qed.

End phase_facts.

(** ** The sample gate meets the contract *)

Lemma sampleGate_failure_unchanged : gate_failure_unchanged sampleGate.
Proof.
  intros ts try tp e tp'. unfold sampleGate.
  destruct (existsb _ _); [by intros [= _ <-]|].
  destruct (try ts); [done|by intros [= _ <-]].
Qed.

Lemma sampleGate_records_offered : gate_records_offered sampleGate.
Proof.
  intros ts try tp sid set. unfold sampleGate.
  destruct (existsb _ _); [by right|].
  destruct (try ts); [|by right]. simpl.
  rewrite lookup_insert. case_decide; [|by right].
  intros [= <-]. by left.
Qed.

Lemma sampleGate_keeps_height : gate_keeps_height sampleGate.
Proof.
  intros ts try tp. unfold sampleGate.
  destruct (existsb _ _); [done|]. by destruct (try ts).
Qed.

Lemma sampleGate_memory_only : gate_memory_only sampleGate.
Proof.
  intros ts try tp1 tp2 Hmem.
  assert (knownObjects tp1 = knownObjects tp2) as Hk
    by (unfold memory in Hmem; congruence).
  unfold sampleGate. rewrite Hk.
  destruct (existsb _ _); [done|].
  destruct (try ts); [|done]. split; [done|].
  revert Hmem. unfold memory. simpl. intros [= _ Hs Hd Hz Hb Hh].
  by rewrite Hs, Hd, Hz, Hb, Hh.
Qed.

Lemma sampleRange_ok : range_ok sampleRange.
Proof. intros m. reflexivity. Qed.

(** ** C3, continued *)

Section net_height.

Context (db : Database) (g : Gate) (rangeSets : RangeOrder).
Context (Hg : gate_keeps_height g).

Lemma blockHeight_ProcessConsensusChange cc tp :
  0 ≤ blockHeight tp < 2 ^ 64 →
  blockHeight (exec (ProcessConsensusChange db g rangeSets cc) tp)
  = types.wrap64 (blockHeight tp
                  + Z.of_nat (length (modules.AppliedBlocks cc))
                  - Z.of_nat (length (modules.RevertedBlocks cc))).
Proof.
  intros Hh. rewrite <- (blockHeight_updateDatabase db cc tp Hh).
  apply (ProcessConsensusChange_inv db g rangeSets cc tp
           (λ tp', blockHeight tp' = blockHeight (exec (updateDatabase db cc) tp))).
  - by intros id tp' <-.
  - intros ts try tp' <-. apply Hg.
  - done.
Qed.

Lemma blockHeight_processAll ccs tp :
  0 ≤ blockHeight tp < 2 ^ 64 →
  blockHeight (processAll db g rangeSets ccs tp)
  = types.wrap64 (blockHeight tp + netHeight ccs).
Proof.
  revert tp. induction ccs as [|cc ccs IH]; intros tp Hh.
  - simpl. rewrite Z.add_0_r. by rewrite wrap64_small.
  - change (processAll db g rangeSets (cc :: ccs) tp)
      with (processAll db g rangeSets ccs
              (exec (ProcessConsensusChange db g rangeSets cc) tp)).
    change (netHeight (cc :: ccs))
      with (Z.of_nat (length (modules.AppliedBlocks cc))
            - Z.of_nat (length (modules.RevertedBlocks cc))
            + netHeight ccs).
    rewrite IH.
    + rewrite blockHeight_ProcessConsensusChange by done.
      rewrite wrap64_add_l. f_equal. lia.
    + rewrite blockHeight_ProcessConsensusChange by done.
      apply wrap64_range.
Qed.

End net_height.

(** C3 as the code has it.  [blockHeight] is a [uint64]: starting from 0,
    after any sequence of changes it equals the net sum (+1 per applied
    block, -1 per reverted block) reduced modulo 2^64, hence the net sum
    itself whenever that lies in [0, 2^64); and each call moves a height
    [h] to [(h + applied - reverted) mod 2^64]. *)
Theorem C3_blockHeight_net_sum_mod_2_64
    (db : Database) (g : Gate) (rangeSets : RangeOrder)
    (ccs : list modules.ConsensusChange) (tp : TransactionPool)
    (Hg : gate_keeps_height g) (H0 : blockHeight tp = 0) :
  blockHeight (processAll db g rangeSets ccs tp)
    = types.wrap64 (netHeight ccs) ∧
  (0 ≤ netHeight ccs < 2 ^ 64 →
   blockHeight (processAll db g rangeSets ccs tp) = netHeight ccs) ∧
  (∀ cc tp', 0 ≤ blockHeight tp' < 2 ^ 64 →
     blockHeight (exec (ProcessConsensusChange db g rangeSets cc) tp')
     = types.wrap64 (blockHeight tp'
                     + Z.of_nat (length (modules.AppliedBlocks cc))
                     - Z.of_nat (length (modules.RevertedBlocks cc)))).
Proof.
  assert (blockHeight (processAll db g rangeSets ccs tp)
          = types.wrap64 (netHeight ccs)) as Hnet.
  { rewrite blockHeight_processAll by (done || rewrite H0; lia).
    by rewrite H0. }
  split; [done|]. split.
  - intros Hrange. by rewrite Hnet, wrap64_small.
  - intros cc tp'. by apply blockHeight_ProcessConsensusChange.
Qed.

(** Three blocks applied, then one of them reverted and two applied: the
    height is 4. *)
Lemma C3_witness :
  blockHeight
    (processAll idealDB sampleGate sampleRange
       [change [] [types.mkBlock []; types.mkBlock []; types.mkBlock []] 1;
        change [types.mkBlock []] [types.mkBlock []; types.mkBlock []] 2]
       emptyPool)
  = 4.
Proof.
  refine (proj1 (proj2 (C3_blockHeight_net_sum_mod_2_64
            idealDB sampleGate sampleRange _ emptyPool
            sampleGate_keeps_height eq_refl)) _).
  vm_compute. split; [discriminate|reflexivity].
Defined.

(** The claim as stated fails when a block is reverted at height 0: the
    counter wraps to 2^64 - 1 while the net sum is -1. *)
Lemma C3_counterexample :
  blockHeight
    (processAll idealDB sampleGate sampleRange
       [change [types.mkBlock []] [] 1] emptyPool)
  ≠ netHeight [change [types.mkBlock []] [] 1].
Proof. vm_compute. discriminate. Qed.

(** ** The age filter (lines 88-99) *)

(** Writing [unconfirmedSets[i]] while ranging over [unconfirmedSets] is a
    map: iteration [i] reads element [i] before it overwrites it. *)
Lemma run_eta {A} (m : M A) tp : m tp = (eval m tp, exec m tp, trace m tp).
Proof. unfold eval, exec, trace. by destruct (m tp) as [[??]?]. Qed.

Section mapM_facts.

Context {A B : Type} (f : A → M B).

Lemma eval_mapM_cons x l tp :
  eval (mapM f (x :: l)) tp
  = eval (f x) tp :: eval (mapM f l) (exec (f x) tp).
Proof.
  change (mapM f (x :: l)) with (y ← f x; k ← mapM f l; mret (y :: k)).
  by rewrite !eval_bind.
Qed.

Lemma exec_mapM_cons x l tp :
  exec (mapM f (x :: l)) tp = exec (mapM f l) (exec (f x) tp).
Proof.
  change (mapM f (x :: l)) with (y ← f x; k ← mapM f l; mret (y :: k)).
  by rewrite !exec_bind, exec_ret.
Qed.

Lemma trace_mapM_cons x l tp :
  trace (mapM f (x :: l)) tp
  = trace (f x) tp ++ trace (mapM f l) (exec (f x) tp).
Proof.
  change (mapM f (x :: l)) with (y ← f x; k ← mapM f l; mret (y :: k)).
  by rewrite !trace_bind, trace_ret, app_nil_r.
Qed.

End mapM_facts.

Lemma foldM_insert_mapM {A} (f : A → M A) (rest pre : list A) tp :
  let loop :=
    foldM (λ acc '(i, x), y ← f x; mret (<[i := y]> acc))
          (pre ++ rest) (imap (λ i x, ((length pre + i)%nat, x)) rest) in
  eval loop tp = pre ++ eval (mapM f rest) tp ∧
  exec loop tp = exec (mapM f rest) tp ∧
  trace loop tp = trace (mapM f rest) tp.
Proof.
  revert pre tp. induction rest as [|x rest IH]; intros pre tp.
  - simpl. by rewrite !app_nil_r.
  - intros loop. subst loop. rewrite imap_cons. simpl foldM.
    repeat (progress rewrite ?eval_bind, ?exec_bind, ?trace_bind, ?exec_ret,
              ?trace_ret, ?eval_ret, ?app_nil_r).
    rewrite (insert_app_r pre (x :: rest) 0). simpl insert.
    rewrite (imap_ext _
               (λ i x0, ((length (pre ++ [eval (f x) tp]) + i)%nat, x0)))
      by (intros i y _; simpl; rewrite length_app; simpl; f_equal; lia).
    rewrite (cons_middle (eval (f x) tp) pre rest), app_assoc.
    destruct (IH (pre ++ [eval (f x) tp]) (exec (f x) tp)) as (-> & -> & ->).
    rewrite eval_mapM_cons, exec_mapM_cons, trace_mapM_cons.
    by rewrite <- app_assoc.
Qed.

Lemma pruneSets_mapM sets tp :
  pruneSets sets tp = mapM (foldM pruneTxn []) sets tp.
Proof.
  rewrite (run_eta (pruneSets sets)), (run_eta (mapM _ sets)).
  destruct (foldM_insert_mapM (foldM pruneTxn []) sets [] tp)
    as (H1 & H2 & H3).
  f_equal; [f_equal|]; [exact H1|exact H2|exact H3].
Qed.

(** The age check of lines 91-92 keeps a transaction exactly when it has no
    recorded height or the [uint64] difference is at most [maxTxnAge]. *)
Lemma keptByAge_spec tp txn :
  keptByAge tp txn = true ↔
  transactionHeights tp !! types.ID txn = None ∨
  ∃ H, transactionHeights tp !! types.ID txn = Some H ∧
       types.sub (blockHeight tp) H ≤ maxTxnAge.
Proof.
  unfold keptByAge. rewrite orb_true_iff, Z.leb_le, negb_true_iff.
  rewrite bool_decide_eq_false.
  destruct (transactionHeights tp !! types.ID txn) as [H|] eqn:Hl; simpl.
  - split.
    + intros [Hle|Hno]; [right; eauto|]. destruct Hno. eauto.
    + intros [[=]|(H' & [= <-] & Hle)]. by left.
  - split; [by left|]. intros _. right. by intros [? [=]].
Qed.

(** When the recorded height is not in the future, the [uint64] difference
    is the mathematical one. *)
Lemma sub_no_wrap h H : 0 ≤ H ≤ h → h < 2 ^ 64 → types.sub h H = h - H.
Proof. intros. unfold types.sub. apply wrap64_small. lia. Qed.




(** C2 fails on the code.  [txnA] is pooled and first seen at height 100;
    a reorganisation to a shorter chain brings the height to 99.  Its age
    is [99 - 100 = -1 <= 12], yet the change drops it from the pool and
    deletes its height record, without offering it to the gate. *)
Theorem C2_young_transaction_pruned_after_reorg :
  let run := ProcessConsensusChange idealDB sampleGate sampleRange
               shorterChain in
  let tp' := exec run (poolWithA 100 100) in
  blockHeight tp' = 99 ∧
  blockHeight tp' - 100 ≤ 12 ∧
  transactionSets tp' = ∅ ∧
  transactionHeights tp' !! types.ID txnA = None ∧
  trace run (poolWithA 100 100)
  = [EvLock; EvDemote; EvNotify tp'; EvDemotedUnlock].
Proof. vm_compute. repeat split; discriminate. Qed.

(** ** Loops as iterations over a flat list *)

Lemma run_unit (m : M unit) tp : m tp = (tt, exec m tp, trace m tp).
Proof. rewrite (run_eta m tp). by destruct (eval m tp). Qed.

Lemma same_run_eq m1 m2 tp : same_run m1 m2 → m1 tp = m2 tp.
Proof.
  intros H. rewrite (run_unit m1), (run_unit m2).
  by destruct (H tp) as [-> ->].
Qed.

Section flat_loops.

Context {A : Type}.
Implicit Types (l : list A) (body : A → M unit).

Lemma forM_ext l body1 body2 :
  (∀ x, x ∈ l → same_run (body1 x) (body2 x)) →
  same_run (forM_ l body1) (forM_ l body2).
Proof.
  induction l as [|x l IH]; intros Hb tp; [done|].
  rewrite !exec_forM_cons, !trace_forM_cons.
  destruct (Hb x (list_elem_of_here _ _) tp) as [-> ->].
  destruct (IH (λ y Hy, Hb y (list_elem_of_further _ _ _ Hy))
              (exec (body2 x) tp)) as [-> ->].
  done.
Qed.

(** Nested [range] loops visit the concatenation. *)
Lemma forM_concat (ls : list (list A)) body :
  same_run (forM_ ls (λ l, forM_ l body)) (forM_ (concat ls) body).
Proof.
  induction ls as [|l ls IH]; intros tp; [done|].
  rewrite exec_forM_cons, trace_forM_cons. simpl concat.
  rewrite exec_forM_app, trace_forM_app.
  by destruct (IH (exec (forM_ l body) tp)) as [-> ->].
Qed.

(** A loop whose body starts with [if P x { continue }] visits the
    elements that fail [P]. *)
Lemma forM_continue (P : A → Prop) `{∀ x, Decision (P x)} l body :
  same_run (forM_ l (λ x, if decide (P x) then mret tt else body x))
           (forM_ (filter (λ x, ¬ P x) l) body).
Proof.
  induction l as [|x l IH]; intros tp; [done|].
  rewrite exec_forM_cons, trace_forM_cons.
  destruct (decide (P x)) as [HP|HP].
  - rewrite filter_cons_False by auto.
    rewrite exec_ret, trace_ret. apply IH.
  - rewrite filter_cons_True by auto.
    rewrite exec_forM_cons, trace_forM_cons.
    by destruct (IH (exec (body x) tp)) as [-> ->].
Qed.

Lemma forDown_ext n (body1 body2 : nat → M unit) :
  (∀ i, (i < n)%nat → body1 i = body2 i) →
  forDown n body1 = forDown n body2.
Proof.
  induction n as [|n IH]; intros Hb; [done|].
  simpl. rewrite Hb by lia. rewrite IH; [done|]. intros i Hi. apply Hb. lia.
Qed.

(** The index loop from [len(l) - 1] down to 0 visits [l] in reverse. *)
Lemma forDown_reverse l body :
  forDown (length l)
    (λ i, match l !! i with Some x => body x | None => mret tt end)
  = forM_ (reverse l) body.
Proof.
  induction l as [|x l IH] using rev_ind; [done|].
  rewrite length_app, Nat.add_comm, reverse_snoc. simpl.
  rewrite list_lookup_middle by done.
  rewrite (forDown_ext (length l) _
             (λ i, match l !! i with Some x => body x | None => mret tt end))
    by (intros i Hi; by rewrite lookup_app_l).
  by rewrite IH.
Qed.

End flat_loops.

Lemma forM_fmap {A B} (f : A → B) (l : list A) (body : B → M unit) :
  forM_ (f <$> l) body = forM_ l (λ x, body (f x)).
Proof.
  induction l as [|x l IH]; [done|]. rewrite fmap_cons. simpl forM_.
  by rewrite IH.
Qed.

Lemma elem_of_concat {A} (x : A) (ls : list (list A)) :
  x ∈ concat ls ↔ ∃ l, x ∈ l ∧ l ∈ ls.
Proof.
  induction ls as [|l ls IH]; simpl.
  - split; [by intros []%elem_of_nil|]. by intros (? & _ & []%elem_of_nil).
  - rewrite elem_of_app, IH. split.
    + intros [?|(l' & ? & ?)]; [exists l|exists l']; split; auto.
      * by left.
      * by right.
    + intros (l' & Hx & [->|?]%elem_of_cons); [by left|right; eauto].
Qed.

(** ** The set of newly confirmed IDs (lines 58-63) *)

Lemma elem_of_scan_block (txns : list types.Transaction)
    (txids : gset types.TransactionID) id :
  id ∈ foldl (λ txids txn, {[types.ID txn]} ∪ txids) txids txns ↔
  id ∈ txids ∨ ∃ txn, txn ∈ txns ∧ types.ID txn = id.
Proof.
  revert txids. induction txns as [|txn txns IH]; intros txids; simpl.
  - split; [by left|]. intros [?|(? & []%elem_of_nil & _)]. done.
  - rewrite IH, elem_of_union, elem_of_singleton. split.
    + intros [[->|?]|(t & Ht & <-)]; [right|by left|right].
      * exists txn. split; [by left|done].
      * exists t. split; [by right|done].
    + intros [?|(t & Ht & <-)]; [left; by right|].
      apply elem_of_cons in Ht as [->|Ht]; [left; by left|].
      right. eauto.
Qed.

Lemma elem_of_scanApplied cc id :
  id ∈ scanApplied cc ↔
  ∃ block txn, block ∈ modules.AppliedBlocks cc ∧
               txn ∈ types.Transactions block ∧ types.ID txn = id.
Proof.
  unfold scanApplied.
  assert (∀ blocks (txids : gset types.TransactionID),
    id ∈ foldl (λ txids block,
                  foldl (λ txids txn, {[types.ID txn]} ∪ txids)
                        txids (types.Transactions block)) txids blocks ↔
    id ∈ txids ∨ ∃ block txn, block ∈ blocks ∧
                   txn ∈ types.Transactions block ∧ types.ID txn = id) as H.
  { induction blocks as [|b blocks IH]; intros txids; simpl.
    - split; [by left|]. intros [?|(? & ? & []%elem_of_nil & _)]. done.
    - rewrite IH, elem_of_scan_block. split.
      + intros [[?|(t & Ht & <-)]|(b' & t & Hb & Ht & <-)].
        * by left.
        * right. exists b, t. split; [by left|done].
        * right. exists b', t. split; [by right|done].
      + intros [?|(b' & t & Hb & Ht & <-)]; [left; by left|].
        apply elem_of_cons in Hb as [->|Hb].
        * left. right. eauto.
        * right. eauto. }
  rewrite H. split; [|by right]. by intros [[]%elem_of_empty|?].
Qed.

(** ** C4: resurrection of the reverted transactions (lines 103-116) *)

Section offers.

Context (g : Gate) (try : TryFn).

(** Offering a list of transactions one by one, ignoring the result. *)
Lemma exec_offers (txns : list types.Transaction) tp :
  exec (forM_ txns (λ txn, accept g [txn] try ;; mret tt)) tp
  = foldl (λ tp txn, (g [txn] try tp).2) tp txns.
Proof.
  revert tp. induction txns as [|txn txns IH]; intros tp; [done|].
  rewrite exec_forM_cons, IH, exec_bind, exec_ret, exec_accept. done.
Qed.

Lemma trace_offers (txns : list types.Transaction) tp :
  Forall2 (λ ev txn, ∃ err, ev = EvAccept [txn] try err)
    (trace (forM_ txns (λ txn, accept g [txn] try ;; mret tt)) tp) txns.
Proof.
  revert tp. induction txns as [|txn txns IH]; intros tp; [constructor|].
  rewrite trace_forM_cons, trace_bind, trace_ret, app_nil_r, trace_accept.
  simpl. constructor; [eauto|apply IH].
Qed.

End offers.

Lemma readdReverted_flat g cc txids :
  same_run (readdReverted g cc txids)
    (forM_ (filter (λ txn, types.ID txn ∉ txids)
              (concat (types.Transactions
                         <$> reverse (modules.RevertedBlocks cc))))
       (λ txn, accept g [txn] (modules.TryTransactionSet cc) ;; mret tt)).
Proof.
  intros tp. unfold readdReverted.
  rewrite (forDown_reverse (modules.RevertedBlocks cc)
             (λ block, forM_ (types.Transactions block) (λ txn,
                if decide (types.ID txn ∈ txids) then mret tt
                else accept g [txn] (modules.TryTransactionSet cc) ;; mret tt))).
  rewrite <- (forM_fmap types.Transactions (reverse (modules.RevertedBlocks cc))
                (λ txns, forM_ txns (λ txn,
                   if decide (types.ID txn ∈ txids) then mret tt
                   else accept g [txn] (modules.TryTransactionSet cc) ;; mret tt))).
  destruct (forM_concat
              (types.Transactions <$> reverse (modules.RevertedBlocks cc))
              (λ txn, if decide (types.ID txn ∈ txids) then mret tt
                      else accept g [txn] (modules.TryTransactionSet cc) ;; mret tt)
              tp) as [-> ->].
  apply (forM_continue (λ txn, types.ID txn ∈ txids)).
Qed.


(** ** C5: re-admission of the survivors (lines 132-141) *)

Lemma readdUnconfirmed_flat g cc sets :
  same_run (readdUnconfirmed g cc sets)
           (forM_ (concat sets) (readdTxn g cc)).
Proof. apply forM_concat. Qed.

Lemma exec_readdTxn g cc txn tp :
  exec (readdTxn g cc txn) tp =
  match (g [txn] (modules.TryTransactionSet cc) tp).1 with
  | Some _ => set_transactionHeights (delete (types.ID txn))
                (g [txn] (modules.TryTransactionSet cc) tp).2
  | None => (g [txn] (modules.TryTransactionSet cc) tp).2
  end.
Proof.
  unfold readdTxn. rewrite exec_bind, eval_accept, exec_accept.
  by destruct (g [txn] _ tp).1.
Qed.

Lemma trace_readdTxn g cc txn tp :
  trace (readdTxn g cc txn) tp =
  [EvAccept [txn] (modules.TryTransactionSet cc)
     (g [txn] (modules.TryTransactionSet cc) tp).1].
Proof.
  unfold readdTxn. rewrite trace_bind, eval_accept, trace_accept.
  by destruct (g [txn] _ tp).1.
Qed.

Lemma trace_readmissions g cc (txns : list types.Transaction) tp :
  Forall2 (λ ev txn, ∃ err,
             ev = EvAccept [txn] (modules.TryTransactionSet cc) err)
    (trace (forM_ txns (readdTxn g cc)) tp) txns.
Proof.
  revert tp. induction txns as [|txn txns IH]; intros tp; [constructor|].
  rewrite trace_forM_cons, trace_readdTxn. simpl.
  constructor; [eauto|apply IH].
Qed.


(** ** C9: only singleton sets are offered and stored *)

Lemma trace_pruneSets sets tp : trace (pruneSets sets) tp = [].
Proof.
  apply Forall_False_nil. unfold pruneSets.
  apply foldM_trace_Forall. intros acc [i tSet] tp' _.
  rewrite trace_bind, trace_ret, app_nil_r.
  apply foldM_trace_Forall. intros v txn tp'' _.
  rewrite trace_pruneTxn. constructor.
Qed.

Lemma transactionSets_pruneSets sets tp :
  transactionSets (exec (pruneSets sets) tp) = transactionSets tp.
Proof.
  by apply (pruneSets_inv (λ tp', transactionSets tp' = transactionSets tp)).
Qed.

(** A loop invariant that relates the pool to the calls made so far. *)
Lemma forM_inv_trace {A} (I : TransactionPool → list Event → Prop)
    (l : list A) (body : A → M unit) :
  (∀ x tp tr, x ∈ l → I tp tr →
     I (exec (body x) tp) (tr ++ trace (body x) tp)) →
  ∀ tp tr, I tp tr →
    I (exec (forM_ l body) tp) (tr ++ trace (forM_ l body) tp).
Proof.
  induction l as [|x l IH]; intros Hb tp tr HI.
  - change (I tp (tr ++ [])). by rewrite app_nil_r.
  - rewrite exec_forM_cons, trace_forM_cons, app_assoc. apply IH.
    + intros y tp' tr' Hy. apply Hb. by right.
    + apply Hb; [by left|done].
Qed.

Section singletons.

Context (db : Database) (g : Gate) (rangeSets : RangeOrder).
Context (cc : modules.ConsensusChange).

Lemma ProcessConsensusChange_singleton_calls tp :
  Forall singleton_call (trace (ProcessConsensusChange db g rangeSets cc) tp).
Proof.
  rewrite trace_ProcessConsensusChange, trace_pruneSets.
  apply Forall_app. split; [by repeat constructor|]. simpl.
  apply Forall_app. split.
  { destruct (readdReverted_flat g cc (scanApplied cc)
                (afterPrune db rangeSets cc tp)) as [_ ->].
    apply forM_trace_Forall. intros txn tp' _.
    rewrite trace_bind, trace_ret, app_nil_r, trace_accept.
    by repeat constructor. }
  apply Forall_app. split; [|by repeat constructor].
  destruct (readdUnconfirmed_flat g cc (prunedSets db rangeSets cc tp)
              (afterReverted db g rangeSets cc tp)) as [_ ->].
  apply forM_trace_Forall. intros txn tp' _.
  rewrite trace_readdTxn. by repeat constructor.
Qed.

Context (Hg : gate_records_offered g).

Lemma stored_were_admitted_call txn tp tr :
  stored_were_admitted cc tp tr →
  stored_were_admitted cc (g [txn] (modules.TryTransactionSet cc) tp).2
    (tr ++ [EvAccept [txn] (modules.TryTransactionSet cc)
              (g [txn] (modules.TryTransactionSet cc) tp).1]).
Proof.
  intros HI sid set Hset.
  destruct (Hg _ _ _ _ _ Hset) as [[-> Hok]|Hold].
  - exists txn. split; [done|]. rewrite Hok. apply elem_of_app. right.
    by left.
  - destruct (HI _ _ Hold) as (t & -> & Hin). exists t. split; [done|].
    apply elem_of_app. by left.
Qed.

Lemma ProcessConsensusChange_stored_were_admitted tp :
  stored_were_admitted cc
    (exec (ProcessConsensusChange db g rangeSets cc) tp)
    (trace (ProcessConsensusChange db g rangeSets cc) tp).
Proof.
  rewrite trace_ProcessConsensusChange, trace_pruneSets.
  rewrite exec_ProcessConsensusChange. simpl.
  assert (stored_were_admitted cc (afterPrune db rangeSets cc tp) [EvLock])
    as H0.
  { intros sid set. unfold afterPrune.
    rewrite transactionSets_pruneSets. simpl. by rewrite lookup_empty. }
  assert (stored_were_admitted cc (afterReverted db g rangeSets cc tp)
            ([EvLock] ++ trace (readdReverted g cc (scanApplied cc))
                           (afterPrune db rangeSets cc tp))) as H1.
  { unfold afterReverted.
    destruct (readdReverted_flat g cc (scanApplied cc)
                (afterPrune db rangeSets cc tp)) as [-> ->].
    apply forM_inv_trace; [|done]. intros txn tp' tr _ HI.
    rewrite exec_bind, exec_ret, exec_accept.
    rewrite trace_bind, trace_ret, app_nil_r, trace_accept.
    by apply stored_were_admitted_call. }
  assert (stored_were_admitted cc
            (exec (readdUnconfirmed g cc (prunedSets db rangeSets cc tp))
               (afterReverted db g rangeSets cc tp))
            (([EvLock] ++ trace (readdReverted g cc (scanApplied cc))
                            (afterPrune db rangeSets cc tp))
             ++ trace (readdUnconfirmed g cc (prunedSets db rangeSets cc tp))
                  (afterReverted db g rangeSets cc tp))) as H2.
  { destruct (readdUnconfirmed_flat g cc (prunedSets db rangeSets cc tp)
                (afterReverted db g rangeSets cc tp)) as [-> ->].
    apply forM_inv_trace; [|done]. intros txn tp' tr _ HI.
    rewrite trace_readdTxn, exec_readdTxn.
    pose proof (stored_were_admitted_call txn tp' tr HI) as Hcall.
    by destruct (g [txn] _ tp').1. }
  intros sid set Hset. destruct (H2 sid set Hset) as (txn & -> & Hin).
  exists txn. split; [done|].
  rewrite <- app_assoc in Hin. simpl in Hin.
  apply elem_of_cons in Hin as [[=]|Hin]. right.
  rewrite app_assoc. apply elem_of_app. by left.
Qed.

End singletons.

(** C9.  Every call [ProcessConsensusChange] makes to the gate passes a
    set of length one.  With a gate that stores only sets it was offered,
    every set in the pool when the call returns is a singleton [[txn]]
    that the gate accepted during this call. *)
Theorem C9_only_singletons_offered_and_stored
    (db : Database) (g : Gate) (rangeSets : RangeOrder)
    (cc : modules.ConsensusChange) (tp : TransactionPool)
    (Hg : gate_records_offered g) :
  let run := ProcessConsensusChange db g rangeSets cc in
  Forall singleton_call (trace run tp) ∧
  ∀ sid set, transactionSets (exec run tp) !! sid = Some set →
    ∃ txn, set = [txn] ∧
           EvAccept [txn] (modules.TryTransactionSet cc) None ∈ trace run tp.
Proof.
  split.
  - apply ProcessConsensusChange_singleton_calls.
  - by apply ProcessConsensusChange_stored_were_admitted.
Qed.

(** ** C1: confirmed transactions leave the pool *)

Lemma newTSet_filter txids (tSet : list types.Transaction) :
  newTSet txids tSet = filter (λ txn, types.ID txn ∉ txids) tSet.
Proof.
  unfold newTSet.
  assert (∀ acc : list types.Transaction,
    foldl (λ newTSet txn,
             if decide (types.ID txn ∈ txids) then newTSet
             else newTSet ++ [txn]) acc tSet
    = acc ++ filter (λ txn, types.ID txn ∉ txids) tSet) as H.
  { induction tSet as [|txn tSet IH]; intros acc; simpl.
    - by rewrite app_nil_r.
    - rewrite IH. destruct (decide (types.ID txn ∈ txids)).
      + by rewrite filter_cons_False by auto.
      + rewrite filter_cons_True by auto. by rewrite <- app_assoc. }
  apply H.
Qed.

Lemma saveUnconfirmedSets_fmap txids (sets : list (list types.Transaction)) :
  saveUnconfirmedSets txids sets = newTSet txids <$> sets.
Proof.
  unfold saveUnconfirmedSets.
  assert (∀ acc : list (list types.Transaction),
    foldl (λ unconfirmedSets tSet, unconfirmedSets ++ [newTSet txids tSet])
          acc sets
    = acc ++ (newTSet txids <$> sets)) as H.
  { induction sets as [|tSet sets IH]; intros acc; simpl.
    - by rewrite app_nil_r.
    - rewrite IH. by rewrite <- app_assoc. }
  apply H.
Qed.

Lemma memory_pooled tp1 tp2 :
  memory tp1 = memory tp2 ↔
  pooled tp1 = pooled tp2 ∧ blockHeight tp1 = blockHeight tp2.
Proof.
  unfold memory, pooled. split.
  - by intros [= -> -> -> -> -> ->].
  - by intros [[= -> -> -> -> ->] ->].
Qed.

Lemma memory_set_blockHeight (F1 F2 : Z → Z) tp1 tp2 :
  pooled tp1 = pooled tp2 →
  F1 (blockHeight tp1) = F2 (blockHeight tp2) →
  memory (set_blockHeight F1 tp1) = memory (set_blockHeight F2 tp2).
Proof. intros H1 H2. by apply memory_pooled. Qed.

Lemma memory_set_dbTx d tp : memory (set_dbTx d tp) = memory tp.
Proof. done. Qed.

Lemma memory_purge tp1 tp2 :
  memory tp1 = memory tp2 → memory (purge tp1) = memory (purge tp2).
Proof. unfold memory. simpl. by intros [= _ _ _ _ -> ->]. Qed.

Lemma memory_set_transactionHeights F tp1 tp2 :
  memory tp1 = memory tp2 →
  memory (set_transactionHeights F tp1) = memory (set_transactionHeights F tp2).
Proof. unfold memory. simpl. by intros [= -> -> -> -> -> ->]. Qed.

(** The loops of lines 26-43 change nothing in memory but the height. *)
Lemma memory_block_loop (f : Z → Z) (inner : types.Block → M unit) blocks :
  (∀ block tp, memory (exec (inner block) tp) = memory tp) →
  ∀ tp,
    memory (exec (forM_ blocks (λ block,
                    modify (set_blockHeight f) ;; inner block)) tp)
    = memory (set_blockHeight (Nat.iter (length blocks) f) tp).
Proof.
  intros Hinner. induction blocks as [|b blocks IH]; intros tp.
  - by destruct tp.
  - rewrite exec_forM_cons, IH, exec_bind, exec_modify.
    apply memory_set_blockHeight.
    + by destruct (proj1 (memory_pooled _ _) (Hinner b (set_blockHeight f tp))).
    + rewrite (memory_blockHeight _ _ (Hinner _ _)). simpl.
      symmetry. apply (Nat.iter_succ_r (length blocks) f).
Qed.

Lemma memory_store_loop (op : types.TransactionID → DB → option error * DB)
    msg (txns : list types.Transaction) tp :
  memory (exec (forM_ txns (λ txn,
                  err ← withDB (op (types.ID txn)); logIfErr msg err)) tp)
  = memory tp.
Proof.
  apply (forM_inv (λ tp', memory tp' = memory tp)); [|done].
  intros txn tp' _ <-. apply memory_store_step.
Qed.

Lemma memory_updateDatabase db cc tp :
  memory (exec (updateDatabase db cc) tp)
  = memory (set_blockHeight
              (λ h, Nat.iter (length (modules.AppliedBlocks cc)) types.incr
                      (Nat.iter (length (modules.RevertedBlocks cc))
                         types.decr h)) tp).
Proof.
  unfold updateDatabase.
  rewrite exec_bind.
  set (tp1 := exec (forM_ (modules.RevertedBlocks cc) _) tp).
  assert (memory tp1
          = memory (set_blockHeight
                      (Nat.iter (length (modules.RevertedBlocks cc))
                         types.decr) tp)) as H1.
  { subst tp1.
    apply (memory_block_loop types.decr
             (λ block, forM_ (types.Transactions block) (λ txn,
                err ← withDB (λ d, deleteTransaction db d (types.ID txn));
                logIfErr "ERROR: could not delete a transaction:" err))).
    intros block tp'.
    apply (memory_store_loop (λ id d, deleteTransaction db d id)). }
  rewrite exec_bind.
  set (tp2 := exec (forM_ (modules.AppliedBlocks cc) _) tp1).
  assert (memory tp2
          = memory (set_blockHeight
                      (Nat.iter (length (modules.AppliedBlocks cc))
                         types.incr) tp1)) as H2.
  { subst tp2.
    apply (memory_block_loop types.incr
             (λ block, forM_ (types.Transactions block) (λ txn,
                err ← withDB (λ d, addTransaction db d (types.ID txn));
                logIfErr "ERROR: could not add a transaction:" err))).
    intros block tp'.
    apply (memory_store_loop (λ id d, addTransaction db d id)). }
  repeat (progress rewrite ?exec_bind, ?exec_get, ?exec_withDB,
            ?memory_logIfErr, ?memory_set_dbTx).
  rewrite H2.
  apply memory_pooled in H1 as [H1 H1'].
  apply memory_set_blockHeight; [done|]. by rewrite H1'.
Qed.

Lemma transactionSets_updateDatabase db cc tp :
  transactionSets (exec (updateDatabase db cc) tp) = transactionSets tp.
Proof.
  by rewrite (memory_transactionSets _ _ (memory_updateDatabase db cc tp)).
Qed.

(** The age filter only drops transactions: what it keeps of a set is a
    sublist of the set. *)
Lemma foldM_pruneTxn_sublist (tSet validTxns : list types.Transaction) tp :
  ∃ l, eval (foldM pruneTxn validTxns tSet) tp = validTxns ++ l ∧
       l `sublist_of` tSet.
Proof.
  revert validTxns tp.
  induction tSet as [|txn tSet IH]; intros validTxns tp.
  - exists []. split; [by rewrite app_nil_r|constructor].
  - simpl foldM. rewrite eval_bind, eval_pruneTxn.
    destruct (keptByAge tp txn).
    + destruct (IH (validTxns ++ [txn]) (exec (pruneTxn validTxns txn) tp))
        as (l & -> & Hl).
      exists (txn :: l). split; [by rewrite <- app_assoc|by constructor].
    + destruct (IH validTxns (exec (pruneTxn validTxns txn) tp))
        as (l & -> & Hl).
      exists l. split; [done|by constructor].
Qed.

Lemma pruneSets_sublists (sets : list (list types.Transaction)) tp :
  Forall2 sublist (eval (pruneSets sets) tp) sets.
Proof.
  unfold eval. rewrite pruneSets_mapM. fold (eval (mapM (foldM pruneTxn []) sets) tp).
  revert tp. induction sets as [|tSet sets IH]; intros tp; [constructor|].
  rewrite eval_mapM_cons. constructor; [|apply IH].
  by destruct (foldM_pruneTxn_sublist tSet [] tp) as (l & -> & Hl).
Qed.

Lemma elem_of_pruned (sets : list (list types.Transaction)) tp txn :
  txn ∈ concat (eval (pruneSets sets) tp) → txn ∈ concat sets.
Proof.
  pose proof (pruneSets_sublists sets tp) as H.
  induction H as [|out tSet outs sets' Hsub _ IH]; [done|].
  simpl. rewrite !elem_of_app. intros [Hin|Hin]; [left|right; auto].
  by eapply elem_of_sublist.
Qed.

Section confirmed_removed.

Context (db : Database) (g : Gate) (rangeSets : RangeOrder).
Context (cc : modules.ConsensusChange).
Context (Hg : gate_records_offered g).


Lemma savedSets_filter tp :
  savedSets db rangeSets cc tp
  = filter (λ txn, types.ID txn ∉ scanApplied cc)
      <$> rangeSets (transactionSets tp).
Proof.
  unfold savedSets, afterUpdate.
  rewrite transactionSets_updateDatabase, saveUnconfirmedSets_fmap.
  apply list_fmap_ext. intros _ tSet _. apply newTSet_filter.
Qed.


End confirmed_removed.


(** ** C7: what the durable store can and cannot influence *)

(** Two runs of a loop from pools related by [R], with bodies that keep
    [R], end in pools related by [R]. *)
Lemma forM_rel {A} (R : TransactionPool → TransactionPool → Prop)
    (l : list A) (body1 body2 : A → M unit) :
  (∀ x tp1 tp2, R tp1 tp2 → R (exec (body1 x) tp1) (exec (body2 x) tp2)) →
  ∀ tp1 tp2, R tp1 tp2 →
    R (exec (forM_ l body1) tp1) (exec (forM_ l body2) tp2).
Proof.
  intros Hb. induction l as [|x l IH]; intros tp1 tp2 HR; [done|].
  rewrite !exec_forM_cons. by apply IH, Hb.
Qed.

Lemma foldM_rel {A B} (R : TransactionPool → TransactionPool → Prop)
    (l : list A) (body1 body2 : B → A → M B) :
  (∀ b x tp1 tp2, R tp1 tp2 →
     eval (body1 b x) tp1 = eval (body2 b x) tp2 ∧
     R (exec (body1 b x) tp1) (exec (body2 b x) tp2)) →
  ∀ b tp1 tp2, R tp1 tp2 →
    eval (foldM body1 b l) tp1 = eval (foldM body2 b l) tp2 ∧
    R (exec (foldM body1 b l) tp1) (exec (foldM body2 b l) tp2).
Proof.
  intros Hb. induction l as [|x l IH]; intros b tp1 tp2 HR; [done|].
  simpl foldM. rewrite !eval_bind, !exec_bind.
  destruct (Hb b x tp1 tp2 HR) as [-> HR']. by apply IH.
Qed.

Lemma forDown_rel (R : TransactionPool → TransactionPool → Prop)
    n (body1 body2 : nat → M unit) :
  (∀ i tp1 tp2, R tp1 tp2 → R (exec (body1 i) tp1) (exec (body2 i) tp2)) →
  ∀ tp1 tp2, R tp1 tp2 →
    R (exec (forDown n body1) tp1) (exec (forDown n body2) tp2).
Proof.
  intros Hb. induction n as [|n IH]; intros tp1 tp2 HR; [done|].
  simpl forDown. rewrite !exec_bind. by apply IH, Hb.
Qed.

Lemma keptByAge_memory tp1 tp2 txn :
  memory tp1 = memory tp2 → keptByAge tp1 txn = keptByAge tp2 txn.
Proof.
  intros H. unfold keptByAge.
  by rewrite (memory_blockHeight _ _ H), (memory_transactionHeights _ _ H).
Qed.

Lemma pruneSets_memory sets tp1 tp2 :
  memory tp1 = memory tp2 →
  eval (pruneSets sets) tp1 = eval (pruneSets sets) tp2 ∧
  memory (exec (pruneSets sets) tp1) = memory (exec (pruneSets sets) tp2).
Proof.
  unfold pruneSets.
  apply (foldM_rel (λ tp1 tp2, memory tp1 = memory tp2)).
  intros acc [i tSet] t1 t2 HR. rewrite !eval_bind, !exec_bind, !exec_ret.
  rewrite !eval_ret.
  destruct (foldM_rel (λ tp1 tp2, memory tp1 = memory tp2) tSet
              pruneTxn pruneTxn) with (b := @nil types.Transaction)
              (tp1 := t1) (tp2 := t2) as [-> HR']; [|done|done].
  intros v txn t1' t2' HR'. rewrite !eval_pruneTxn, !exec_pruneTxn.
  rewrite (keptByAge_memory _ _ _ HR').
  destruct (keptByAge t2' txn); [done|].
  split; [done|]. by apply memory_set_transactionHeights.
Qed.

Section store_independence.

Context (g : Gate) (Hg : gate_memory_only g).
Context (cc : modules.ConsensusChange).

Lemma readdReverted_memory txids tp1 tp2 :
  memory tp1 = memory tp2 →
  memory (exec (readdReverted g cc txids) tp1)
  = memory (exec (readdReverted g cc txids) tp2).
Proof.
  unfold readdReverted.
  apply (forDown_rel (λ tp1 tp2, memory tp1 = memory tp2)).
  intros i t1 t2 HR.
  destruct (modules.RevertedBlocks cc !! i) as [block|]; [|done].
  revert HR. apply (forM_rel (λ tp1 tp2, memory tp1 = memory tp2)).
  intros txn t1' t2' HR. case_decide; [done|].
  rewrite !exec_bind, !exec_ret, !exec_accept. by apply Hg.
Qed.

Lemma readdUnconfirmed_memory sets tp1 tp2 :
  memory tp1 = memory tp2 →
  memory (exec (readdUnconfirmed g cc sets) tp1)
  = memory (exec (readdUnconfirmed g cc sets) tp2).
Proof.
  unfold readdUnconfirmed.
  apply (forM_rel (λ tp1 tp2, memory tp1 = memory tp2)).
  intros set t1 t2.
  apply (forM_rel (λ tp1 tp2, memory tp1 = memory tp2)).
  intros txn t1' t2' HR. rewrite !exec_readdTxn.
  destruct (Hg [txn] (modules.TryTransactionSet cc) t1' t2' HR) as [-> Hm].
  destruct (g [txn] _ t2').1; [|done].
  by apply memory_set_transactionHeights.
Qed.

End store_independence.

Lemma ProcessConsensusChange_calls db g rangeSets cc tp :
  ∃ calls,
    trace (ProcessConsensusChange db g rangeSets cc) tp
    = [EvLock] ++ calls
      ++ [EvDemote;
          EvNotify (exec (ProcessConsensusChange db g rangeSets cc) tp);
          EvDemotedUnlock] ∧
    Forall2 (λ ev txn, ∃ err,
               ev = EvAccept [txn] (modules.TryTransactionSet cc) err)
      calls
      (revertedCandidates cc ++ concat (prunedSets db rangeSets cc tp)).
Proof.
  rewrite trace_ProcessConsensusChange, trace_pruneSets.
  destruct (readdReverted_flat g cc (scanApplied cc)
              (afterPrune db rangeSets cc tp)) as [_ ->].
  destruct (readdUnconfirmed_flat g cc (prunedSets db rangeSets cc tp)
              (afterReverted db g rangeSets cc tp)) as [_ ->].
  fold (revertedCandidates cc). simpl app.
  exists (trace (forM_ (revertedCandidates cc) (λ txn,
                   accept g [txn] (modules.TryTransactionSet cc) ;; mret tt))
            (afterPrune db rangeSets cc tp)
          ++ trace (forM_ (concat (prunedSets db rangeSets cc tp))
                      (readdTxn g cc))
               (afterReverted db g rangeSets cc tp)).
  split; [by rewrite <- app_assoc|].
  apply Forall2_app; [apply trace_offers|apply trace_readmissions].
Qed.

(** The gate that reads the store meets what the spec says of the gate. *)
Lemma dbGate_failure_unchanged : gate_failure_unchanged dbGate.
Proof.
  intros ts try tp e tp'. unfold dbGate.
  destruct (existsb _ ts); [by intros [= _ <-]|].
  apply sampleGate_failure_unchanged.
Qed.

Lemma dbGate_records_offered : gate_records_offered dbGate.
Proof.
  intros ts try tp sid set. unfold dbGate.
  destruct (existsb _ ts); [by right|]. apply sampleGate_records_offered.
Qed.

Lemma dbGate_keeps_height : gate_keeps_height dbGate.
Proof.
  intros ts try tp. unfold dbGate.
  destruct (existsb _ ts); [done|]. apply sampleGate_keeps_height.
Qed.

(** C7 as the code has it.  [ProcessConsensusChange] has no result, and
    whatever the store methods return it runs from [Lock] to
    [DemotedUnlock].  What the store methods return and what the store and
    the log hold never steer the code of [ProcessConsensusChange] itself:
    the in-memory pool at the first call to the gate, the sets to re-admit
    and the transactions offered to the gate, in their order, are the same
    for any two implementations of the store methods.  The in-memory pool
    at the end is the same when the gate looks at the in-memory state
    only. *)
Theorem C7_store_errors_reach_memory_only_through_the_gate
    (db1 db2 : Database) (g : Gate) (rangeSets : RangeOrder)
    (cc : modules.ConsensusChange) (tp1 tp2 : TransactionPool)
    (Hmem : memory tp1 = memory tp2) :
  let run1 := ProcessConsensusChange db1 g rangeSets cc in
  let run2 := ProcessConsensusChange db2 g rangeSets cc in
  let offered :=
    revertedCandidates cc ++ concat (prunedSets db1 rangeSets cc tp1) in
  memory (afterPrune db1 rangeSets cc tp1)
  = memory (afterPrune db2 rangeSets cc tp2) ∧
  prunedSets db1 rangeSets cc tp1 = prunedSets db2 rangeSets cc tp2 ∧
  (∃ calls1 calls2,
     trace run1 tp1
     = [EvLock] ++ calls1
       ++ [EvDemote; EvNotify (exec run1 tp1); EvDemotedUnlock] ∧
     trace run2 tp2
     = [EvLock] ++ calls2
       ++ [EvDemote; EvNotify (exec run2 tp2); EvDemotedUnlock] ∧
     Forall2 (λ ev txn, ∃ err,
                ev = EvAccept [txn] (modules.TryTransactionSet cc) err)
       calls1 offered ∧
     Forall2 (λ ev txn, ∃ err,
                ev = EvAccept [txn] (modules.TryTransactionSet cc) err)
       calls2 offered) ∧
  (gate_memory_only g → memory (exec run1 tp1) = memory (exec run2 tp2)).
Proof.
  intros run1 run2 offered. subst run1 run2 offered.
  assert (memory (afterUpdate db1 cc tp1) = memory (afterUpdate db2 cc tp2))
    as Hup.
  { unfold afterUpdate. rewrite !memory_updateDatabase.
    apply memory_pooled in Hmem as [Hp Hh].
    apply memory_set_blockHeight; [done|]. by rewrite Hh. }
  assert (savedSets db1 rangeSets cc tp1 = savedSets db2 rangeSets cc tp2)
    as Hsaved.
  { unfold savedSets. by rewrite (memory_transactionSets _ _ Hup). }
  destruct (pruneSets_memory (savedSets db2 rangeSets cc tp2)
              (purge (afterUpdate db1 cc tp1))
              (purge (afterUpdate db2 cc tp2)) (memory_purge _ _ Hup))
    as [Hev Hex].
  assert (prunedSets db1 rangeSets cc tp1 = prunedSets db2 rangeSets cc tp2)
    as Hpruned by (unfold prunedSets; by rewrite Hsaved).
  assert (memory (afterPrune db1 rangeSets cc tp1)
          = memory (afterPrune db2 rangeSets cc tp2))
    as Hprune by (unfold afterPrune; by rewrite Hsaved).
  split; [done|]. split; [done|]. split.
  - destruct (ProcessConsensusChange_calls db1 g rangeSets cc tp1)
      as (calls1 & Htrace1 & Hcalls1).
    destruct (ProcessConsensusChange_calls db2 g rangeSets cc tp2)
      as (calls2 & Htrace2 & Hcalls2).
    exists calls1, calls2. rewrite <- Hpruned in Hcalls2. done.
  - intros Hg. rewrite !exec_ProcessConsensusChange.
    unfold afterReverted. rewrite Hpruned.
    apply readdUnconfirmed_memory; [done|].
    by apply readdReverted_memory.
Qed.

(** ** The claims on an example

    The pool holds the set [[txnB; txnC]], both first seen at height 5.
    The change reverts a block that held [txnA] and applies one that holds
    [txnB]. *)


Lemma C7_witness :
  memory (exec (ProcessConsensusChange idealDB sampleGate sampleRange
                  swapAForB) poolWithBC)
  = memory (exec (ProcessConsensusChange failingDB sampleGate sampleRange
                    swapAForB) poolWithBC).
Proof.
  exact (proj2 (proj2 (proj2
           (C7_store_errors_reach_memory_only_through_the_gate
              idealDB failingDB sampleGate sampleRange swapAForB
              poolWithBC poolWithBC eq_refl)))
           sampleGate_memory_only).
Defined.

(** The claim as stated fails with a gate that reads the store.  The store
    records [txnA] as confirmed and the change reverts its block: when the
    deletion succeeds the gate takes [txnA] back into the pool, when it
    fails the gate refuses it. *)
Lemma C7_counterexample :
  memory (exec (ProcessConsensusChange idealDB dbGate sampleRange
                  swapAForB) poolWithBC)
  ≠ memory (exec (ProcessConsensusChange failingDB dbGate sampleRange
                    swapAForB) poolWithBC).
Proof.
  intros Heq. apply memory_transactionSets in Heq.
  apply (f_equal (λ m, m !! sampleSetID [txnA])) in Heq.
  vm_compute in Heq. discriminate.
Qed.

Lemma C9_witness :
  Forall singleton_call
    (trace (ProcessConsensusChange idealDB sampleGate sampleRange swapAForB)
       poolWithBC).
Proof.
  exact (proj1 (C9_only_singletons_offered_and_stored
                  idealDB sampleGate sampleRange swapAForB poolWithBC
                  sampleGate_records_offered)).
Defined.

(** * Further properties of [update.go] *)

(** ** The store phase (lines 26-51) *)

Lemma exec_store_step (op : DB → option error * DB) msg tp :
  exec (err ← withDB op; logIfErr msg err) tp =
  match (op (dbTx tp)).1 with
  | Some e => Println msg e (set_dbTx (op (dbTx tp)).2 tp)
  | None => set_dbTx (op (dbTx tp)).2 tp
  end.
Proof.
  rewrite exec_bind, eval_withDB, exec_withDB.
  by destruct (op (dbTx tp)).1.
Qed.

Lemma dbTx_store_step (op : DB → option error * DB) msg tp :
  dbTx (exec (err ← withDB op; logIfErr msg err) tp) = (op (dbTx tp)).2.
Proof. rewrite exec_store_step. by destruct (op (dbTx tp)).1. Qed.

Lemma log_store_step (op : DB → option error * DB) msg tp :
  log (exec (err ← withDB op; logIfErr msg err) tp) =
  match (op (dbTx tp)).1 with
  | Some e => log tp ++ [msg +:+ " " +:+ e]
  | None => log tp
  end.
Proof. rewrite exec_store_step. by destruct (op (dbTx tp)).1. Qed.

Lemma dbTx_store_loop (op : types.TransactionID → DB → option error * DB)
    msg (txns : list types.Transaction) tp :
  dbTx (exec (forM_ txns (λ txn,
          err ← withDB (op (types.ID txn)); logIfErr msg err)) tp)
  = foldl (λ d txn, (op (types.ID txn) d).2) (dbTx tp) txns.
Proof.
  revert tp. induction txns as [|txn txns IH]; intros tp; [done|].
  by rewrite exec_forM_cons, IH, dbTx_store_step.
Qed.

Lemma dbTx_block_loop (op : types.TransactionID → DB → option error * DB)
    (f : Z → Z) msg (blocks : list types.Block) tp :
  dbTx (exec (forM_ blocks (λ block,
          modify (set_blockHeight f) ;;
          forM_ (types.Transactions block) (λ txn,
            err ← withDB (op (types.ID txn)); logIfErr msg err))) tp)
  = foldl (λ d txn, (op (types.ID txn) d).2) (dbTx tp) (blockTxns blocks).
Proof.
  revert tp. induction blocks as [|b blocks IH]; intros tp; [done|].
  rewrite exec_forM_cons, IH, exec_bind, dbTx_store_loop, exec_modify.
  unfold blockTxns. rewrite fmap_cons. simpl concat. by rewrite foldl_app.
Qed.

(** The last two writes, from the pool the loops leave. *)
Lemma exec_updateDatabase db cc tp :
  exec (updateDatabase db cc) tp =
  let tp2 :=
    exec (forM_ (modules.AppliedBlocks cc) (λ block,
            modify (set_blockHeight types.incr) ;;
            forM_ (types.Transactions block) (λ txn,
              err ← withDB (λ d, addTransaction db d (types.ID txn));
              logIfErr "ERROR: could not add a transaction:" err)))
      (exec (forM_ (modules.RevertedBlocks cc) (λ block,
               modify (set_blockHeight types.decr) ;;
               forM_ (types.Transactions block) (λ txn,
                 err ← withDB (λ d, deleteTransaction db d (types.ID txn));
                 logIfErr "ERROR: could not delete a transaction:" err)))
         tp) in
  let tp3 :=
    exec (err ← withDB (λ d, putRecentConsensusChange db d (modules.ID cc));
          logIfErr "ERROR: could not update the recent consensus change:"
            err) tp2 in
  exec (err ← withDB (λ d, putBlockHeight db d (blockHeight tp3));
        logIfErr "ERROR: could not update the block height:" err) tp3.
Proof.
  unfold updateDatabase.
  repeat (progress rewrite ?exec_bind, ?eval_bind, ?exec_get, ?eval_get).
  reflexivity.
Qed.

(** X1. Lines 26-51 change nothing of the in-memory pool but the height
    counter, and make no call to the lock, the gate or the subscribers:
    the claims, the sets, the diffs, the size and the recorded heights are
    the ones before the call. *)
Theorem X1_store_phase_changes_only_the_height
    (db : Database) (cc : modules.ConsensusChange) (tp : TransactionPool) :
  pooled (exec (updateDatabase db cc) tp) = pooled tp ∧
  trace (updateDatabase db cc) tp = [].
Proof.
  split; [|apply updateDatabase_silent].
  by destruct (proj1 (memory_pooled _ _) (memory_updateDatabase db cc tp)).
Qed.

(** X2. Lines 26-51 make every store write, in program order, whatever the
    earlier writes returned: one deletion per transaction of the reverted
    blocks, one addition per transaction of the applied blocks, then the
    change ID, then the height; and the height written is the one the two
    loops have just computed. *)
Theorem X2_store_writes_all_made_in_order
    (db : Database) (cc : modules.ConsensusChange) (tp : TransactionPool) :
  dbTx (exec (updateDatabase db cc) tp)
  = storeWrites db cc (blockHeight (exec (updateDatabase db cc) tp))
      (dbTx tp).
Proof.
  rewrite exec_updateDatabase. cbv zeta.
  set (tp1 := exec (forM_ (modules.RevertedBlocks cc) _) tp).
  set (tp2 := exec (forM_ (modules.AppliedBlocks cc) _) tp1).
  set (tp3 := exec (_ ← withDB _; logIfErr _ _) tp2).
  rewrite dbTx_store_step.
  rewrite (memory_blockHeight (exec _ tp3) tp3) by apply memory_store_step.
  unfold storeWrites. subst tp3. rewrite dbTx_store_step. subst tp2.
  rewrite (dbTx_block_loop (λ id d, addTransaction db d id)). subst tp1.
  by rewrite (dbTx_block_loop (λ id d, deleteTransaction db d id)).
Qed.

Lemma log_store_loop_failing
    (op : types.TransactionID → DB → option error * DB)
    msg (txns : list types.Transaction) tp :
  (∀ id d, (op id d).1 ≠ None) →
  length (log (exec (forM_ txns (λ txn,
            err ← withDB (op (types.ID txn)); logIfErr msg err)) tp))
  = (length (log tp) + length txns)%nat.
Proof.
  intros Hop. revert tp.
  induction txns as [|txn txns IH]; intros tp;
    [by rewrite Nat.add_0_r|].
  rewrite exec_forM_cons, IH, log_store_step.
  destruct (op (types.ID txn) (dbTx tp)).1 eqn:Herr.
  - rewrite length_app. simpl. lia.
  - by destruct (Hop (types.ID txn) (dbTx tp)).
Qed.

Lemma log_block_loop_failing
    (op : types.TransactionID → DB → option error * DB)
    (f : Z → Z) msg (blocks : list types.Block) tp :
  (∀ id d, (op id d).1 ≠ None) →
  length (log (exec (forM_ blocks (λ block,
            modify (set_blockHeight f) ;;
            forM_ (types.Transactions block) (λ txn,
              err ← withDB (op (types.ID txn)); logIfErr msg err))) tp))
  = (length (log tp) + length (blockTxns blocks))%nat.
Proof.
  intros Hop. revert tp.
  induction blocks as [|b blocks IH]; intros tp;
    [by rewrite Nat.add_0_r|].
  rewrite exec_forM_cons, IH, exec_bind, log_store_loop_failing by done.
  rewrite exec_modify. simpl log.
  unfold blockTxns. rewrite fmap_cons. simpl concat.
  rewrite length_app. lia.
Qed.

Lemma log_prefix_store_step (l : list string) (op : DB → option error * DB)
    msg tp :
  l `prefix_of` log tp →
  l `prefix_of` log (exec (err ← withDB op; logIfErr msg err) tp).
Proof.
  intros Hl. rewrite log_store_step.
  destruct (op (dbTx tp)).1; [by apply prefix_app_r|done].
Qed.

Lemma log_prefix_block_loop (l : list string)
    (op : types.TransactionID → DB → option error * DB)
    (f : Z → Z) msg (blocks : list types.Block) tp :
  l `prefix_of` log tp →
  l `prefix_of`
    log (exec (forM_ blocks (λ block,
           modify (set_blockHeight f) ;;
           forM_ (types.Transactions block) (λ txn,
             err ← withDB (op (types.ID txn)); logIfErr msg err))) tp).
Proof.
  apply (forM_inv (λ tp', l `prefix_of` log tp')).
  intros block tp1 _ H1. rewrite exec_bind.
  apply (forM_inv (λ tp', l `prefix_of` log tp')); [|done].
  intros txn tp2 _. apply log_prefix_store_step.
Qed.

(** X3. A store write that fails is logged and nothing else: with a store
    whose every write fails, lines 26-51 still make all their writes and
    append one line per write to the log, one per transaction of the
    reverted and of the applied blocks and two for the change ID and the
    height; the lines already in the log stay in front. *)
Theorem X3_failed_store_writes_are_logged_not_fatal
    (db : Database) (cc : modules.ConsensusChange) (tp : TransactionPool)
    (Hfail : store_always_fails db) :
  length (log (exec (updateDatabase db cc) tp))
  = (length (log tp)
     + length (blockTxns (modules.RevertedBlocks cc))
     + length (blockTxns (modules.AppliedBlocks cc)) + 2)%nat ∧
  log tp `prefix_of` log (exec (updateDatabase db cc) tp).
Proof.
  destruct Hfail as (Hdel & Hadd & Hcc & Hh).
  rewrite exec_updateDatabase. cbv zeta. split.
  - rewrite !log_store_step.
    destruct (putBlockHeight db _ _).1 eqn:E1; [|by edestruct Hh].
    destruct (putRecentConsensusChange db _ _).1 eqn:E2;
      [|by edestruct Hcc].
    rewrite !length_app.
    rewrite (log_block_loop_failing (λ id d, addTransaction db d id))
      by (intros; apply Hadd).
    rewrite (log_block_loop_failing (λ id d, deleteTransaction db d id))
      by (intros; apply Hdel).
    simpl. lia.
  - do 2 apply log_prefix_store_step.
    apply (log_prefix_block_loop _ (λ id d, addTransaction db d id)).
    by apply (log_prefix_block_loop _ (λ id d, deleteTransaction db d id)).
Qed.

Lemma failingDB_always_fails : store_always_fails failingDB.
Proof. by repeat split. Qed.

Lemma X3_witness :
  length (log (exec (updateDatabase failingDB swapAForB) poolWithBC)) = 4%nat.
Proof.
  exact (proj1 (X3_failed_store_writes_are_logged_not_fatal
                  failingDB swapAForB poolWithBC failingDB_always_fails)).
Defined.

(** ** The height counter (lines 26-43) *)

(** X4. A change that reverts as many blocks as it applies leaves the
    height where it was, also when the reverted blocks outnumber the
    height (the decrements wrap below zero and the increments wrap
    back). *)
Theorem X4_equal_length_reorg_restores_height
    (db : Database) (cc : modules.ConsensusChange) (tp : TransactionPool)
    (Hh : 0 ≤ blockHeight tp < 2 ^ 64)
    (Hlen : length (modules.RevertedBlocks cc)
            = length (modules.AppliedBlocks cc)) :
  blockHeight (exec (updateDatabase db cc) tp) = blockHeight tp ∧
  ∀ g rangeSets, gate_keeps_height g →
    blockHeight (exec (ProcessConsensusChange db g rangeSets cc) tp)
    = blockHeight tp.
Proof.
  assert (types.wrap64
            (blockHeight tp + Z.of_nat (length (modules.AppliedBlocks cc))
             - Z.of_nat (length (modules.RevertedBlocks cc)))
          = blockHeight tp) as Hback.
  { rewrite Hlen. rewrite <- (wrap64_small (blockHeight tp)) at 2 by done.
    f_equal. lia. }
  split.
  - by rewrite blockHeight_updateDatabase.
  - intros g rangeSets Hg.
    by rewrite (blockHeight_ProcessConsensusChange db g rangeSets Hg).
Qed.

Lemma X4_witness :
  blockHeight (exec (updateDatabase idealDB (change [emptyBlock] [emptyBlock] 1))
                 emptyPool) = 0.
Proof.
  refine (proj1 (X4_equal_length_reorg_restores_height
                   idealDB (change [emptyBlock] [emptyBlock] 1) emptyPool
                   _ _)).
  - vm_compute. split; [discriminate|reflexivity].
  - reflexivity.
Defined.

(** ** The set of newly confirmed IDs (lines 58-63) *)

(** X5. The set [txids] built by lines 58-63 is the set of the IDs of the
    transactions of the applied blocks; the reverted blocks play no part
    in it. *)
Theorem X5_scanApplied_is_the_set_of_applied_IDs
    (cc : modules.ConsensusChange) :
  scanApplied cc
  = list_to_set (types.ID <$> blockTxns (modules.AppliedBlocks cc)).
Proof.
  apply set_eq. intros id.
  rewrite elem_of_scanApplied, elem_of_list_to_set, list_elem_of_fmap.
  unfold blockTxns. split.
  - intros (block & txn & Hb & Ht & <-). exists txn. split; [done|].
    apply elem_of_concat. exists (types.Transactions block). split; [done|].
    apply list_elem_of_fmap. eauto.
  - intros (txn & -> & Ht). apply elem_of_concat in Ht as (l & Ht & Hl).
    apply list_elem_of_fmap in Hl as (block & -> & Hb). eauto.
Qed.

(** ** The age filter (lines 88-99) *)

Lemma heights_foldM_pruneTxn_other (tSet validTxns : list types.Transaction)
    tp id :
  (∀ txn, txn ∈ tSet → types.ID txn ≠ id) →
  transactionHeights (exec (foldM pruneTxn validTxns tSet) tp) !! id
  = transactionHeights tp !! id.
Proof.
  revert validTxns tp.
  induction tSet as [|txn tSet IH]; intros validTxns tp Hid; [done|].
  simpl foldM. rewrite exec_bind, IH by (intros; apply Hid; by right).
  rewrite exec_pruneTxn. destruct (keptByAge tp txn); [done|].
  simpl. apply lookup_delete_ne, Hid. by left.
Qed.

Lemma heights_pruneSets_other (sets : list (list types.Transaction)) tp id :
  (∀ txn, txn ∈ concat sets → types.ID txn ≠ id) →
  transactionHeights (exec (pruneSets sets) tp) !! id
  = transactionHeights tp !! id.
Proof.
  unfold exec. rewrite pruneSets_mapM.
  fold (exec (mapM (foldM pruneTxn []) sets) tp).
  revert tp. induction sets as [|tSet sets IH]; intros tp Hid; [done|].
  rewrite exec_mapM_cons, IH.
  - apply heights_foldM_pruneTxn_other. intros txn Ht. apply Hid.
    simpl. apply elem_of_app. by left.
  - intros txn Ht. apply Hid. simpl. apply elem_of_app. by right.
Qed.

(** X6. The age filter returns one list per saved set, each a sublist of
    its set (what it keeps, in order).  It makes no call outside the pool
    and changes no field but [transactionHeights]; there it only deletes
    entries, and only entries of transactions of the saved sets. *)
Theorem X6_age_filter_only_drops_and_only_deletes
    (sets : list (list types.Transaction)) (tp : TransactionPool) :
  Forall2 sublist (eval (pruneSets sets) tp) sets ∧
  trace (pruneSets sets) tp = [] ∧
  set_transactionHeights (λ _, transactionHeights tp)
    (exec (pruneSets sets) tp) = tp ∧
  transactionHeights (exec (pruneSets sets) tp) ⊆ transactionHeights tp ∧
  ∀ id, (∀ txn, txn ∈ concat sets → types.ID txn ≠ id) →
    transactionHeights (exec (pruneSets sets) tp) !! id
    = transactionHeights tp !! id.
Proof.
  split; [apply pruneSets_sublists|]. split; [apply trace_pruneSets|].
  split; [|split].
  - apply (pruneSets_inv
             (λ tp', set_transactionHeights (λ _, transactionHeights tp) tp'
                     = tp)); [done|by destruct tp].
  - apply (pruneSets_inv
             (λ tp', transactionHeights tp' ⊆ transactionHeights tp));
      [|done].
    intros id tp' Hsub. simpl. etrans; [apply delete_subseteq|done].
  - apply heights_pruneSets_other.
Qed.

(** X7. While no recorded height lies above the current height, the age
    check is the rule of [maxTxnAge]: a transaction is dropped, and its
    entry deleted, exactly when it has a recorded first-seen height [H]
    with [blockHeight - H > 12]; otherwise (no record, or an age of at
    most 12) it is kept and nothing changes. *)
Theorem X7_age_rule_when_heights_are_not_ahead
    (tp : TransactionPool) (validTxns : list types.Transaction)
    (txn : types.Transaction)
    (Hh : 0 ≤ blockHeight tp < 2 ^ 64)
    (Hpast : ∀ H, transactionHeights tp !! types.ID txn = Some H →
                  0 ≤ H ≤ blockHeight tp) :
  let stale := ∃ H, transactionHeights tp !! types.ID txn = Some H ∧
                    12 < blockHeight tp - H in
  (stale →
     eval (pruneTxn validTxns txn) tp = validTxns ∧
     exec (pruneTxn validTxns txn) tp
     = set_transactionHeights (delete (types.ID txn)) tp) ∧
  (¬ stale →
     eval (pruneTxn validTxns txn) tp = validTxns ++ [txn] ∧
     exec (pruneTxn validTxns txn) tp = tp).
Proof.
  intros stale. rewrite eval_pruneTxn, exec_pruneTxn.
  assert (keptByAge tp txn = true ↔ ¬ stale) as Hkept.
  { rewrite keptByAge_spec. unfold stale, maxTxnAge.
    destruct (transactionHeights tp !! types.ID txn) as [H|] eqn:Hl.
    - pose proof (Hpast H eq_refl) as HH.
      pose proof (sub_no_wrap (blockHeight tp) H) as Hsub. split.
      + intros [[=]|(H1 & [= <-] & Hle)] (H2 & [= <-] & Hgt).
        rewrite Hsub in Hle by lia. lia.
      + intros Hno. right. exists H. split; [done|]. rewrite Hsub by lia.
        destruct (decide (blockHeight tp - H ≤ 12)); [done|].
        destruct Hno. exists H. split; [done|lia].
    - split; [|by left]. by intros _ (H & [=] & _). }
  destruct (keptByAge tp txn).
  - split; [|done]. intros Hs. destruct (proj1 Hkept eq_refl Hs).
  - split; [done|]. intros Hs. discriminate (proj2 Hkept Hs).
Qed.

Lemma X7_witness :
  eval (pruneTxn [] txnA) (poolWithA 113 100) = [] ∧
  exec (pruneTxn [] txnA) (poolWithA 113 100)
  = set_transactionHeights (delete 1%N) (poolWithA 113 100).
Proof.
  refine (proj1 (X7_age_rule_when_heights_are_not_ahead
                   (poolWithA 113 100) [] txnA _ _) _).
  - vm_compute. split; [discriminate|reflexivity].
  - intros H [= <-]. vm_compute. split; discriminate.
  - exists 100. split; [reflexivity|]. vm_compute. reflexivity.
Defined.

(** The age check of a transaction reads the height counter and the record
    of its ID, nothing else. *)
Lemma keptByAge_ext tp1 tp2 (txn1 txn2 : types.Transaction) :
  blockHeight tp1 = blockHeight tp2 →
  transactionHeights tp1 !! types.ID txn1
  = transactionHeights tp2 !! types.ID txn2 →
  keptByAge tp1 txn1 = keptByAge tp2 txn2.
Proof. unfold keptByAge. by intros -> ->. Qed.

Lemma keptByAge_unseen tp txn :
  transactionHeights tp !! types.ID txn = None → keptByAge tp txn = true.
Proof. intros H. apply keptByAge_spec. by left. Qed.

Section same_ID.

Context (txn : types.Transaction).

(** The filter of one set, seen from one ID: while the check keeps the ID
    every occurrence is kept and its record stays; when the check drops it,
    the first occurrence is dropped, the record is deleted, and the others
    are kept. *)
Lemma foldM_pruneTxn_same_ID (l validTxns : list types.Transaction) tp :
  blockHeight (exec (foldM pruneTxn validTxns l) tp) = blockHeight tp ∧
  filter (λ t, types.ID t = types.ID txn)
    (eval (foldM pruneTxn validTxns l) tp)
  = filter (λ t, types.ID t = types.ID txn) validTxns
    ++ (if keptByAge tp txn then filter (λ t, types.ID t = types.ID txn) l
        else drop 1 (filter (λ t, types.ID t = types.ID txn) l)) ∧
  transactionHeights (exec (foldM pruneTxn validTxns l) tp) !! types.ID txn
  = (if keptByAge tp txn then transactionHeights tp !! types.ID txn
     else match filter (λ t, types.ID t = types.ID txn) l with
          | [] => transactionHeights tp !! types.ID txn
          | _ :: _ => None
          end).
Proof.
  revert validTxns tp.
  induction l as [|t l IH]; intros validTxns tp.
  - simpl. split; [done|]. split; [|by destruct (keptByAge tp txn)].
    rewrite eval_ret. destruct (keptByAge tp txn); by rewrite app_nil_r.
  - simpl foldM. rewrite eval_bind, exec_bind, eval_pruneTxn, exec_pruneTxn.
    destruct (decide (types.ID t = types.ID txn)) as [Hid|Hid].
    + rewrite (filter_cons_True (λ t, types.ID t = types.ID txn)) by done.
      rewrite (keptByAge_ext tp tp t txn eq_refl) by (by rewrite Hid).
      destruct (keptByAge tp txn) eqn:Hkept.
      * destruct (IH (validTxns ++ [t]) tp) as (-> & -> & ->).
        rewrite Hkept. split; [done|]. split; [|done].
        rewrite filter_app,
          (filter_cons_True (λ t, types.ID t = types.ID txn)) by done.
        by rewrite filter_nil, <- app_assoc.
      * destruct (IH validTxns
                    (set_transactionHeights (delete (types.ID t)) tp))
          as (-> & -> & ->).
        rewrite (keptByAge_unseen _ txn)
          by (simpl; rewrite Hid; apply lookup_delete_eq).
        split; [done|]. split; [done|].
        simpl. rewrite Hid. apply lookup_delete_eq.
    + rewrite (filter_cons_False (λ t, types.ID t = types.ID txn)) by done.
      destruct (keptByAge tp t).
      * destruct (IH (validTxns ++ [t]) tp) as (-> & -> & ->).
        split; [done|]. split; [|done].
        rewrite filter_app,
          (filter_cons_False (λ t, types.ID t = types.ID txn)) by done.
        by rewrite filter_nil, app_nil_r.
      * destruct (IH validTxns
                    (set_transactionHeights (delete (types.ID t)) tp))
          as (-> & -> & ->).
        rewrite (keptByAge_ext
                   (set_transactionHeights (delete (types.ID t)) tp) tp
                   txn txn eq_refl)
          by (simpl; by apply lookup_delete_ne).
        split; [done|]. split; [done|].
        simpl. by rewrite lookup_delete_ne.
Qed.

(** The same over all the sets, one after the other. *)
Lemma pruneSets_same_ID (sets : list (list types.Transaction)) tp :
  blockHeight (exec (pruneSets sets) tp) = blockHeight tp ∧
  filter (λ t, types.ID t = types.ID txn) (concat (eval (pruneSets sets) tp))
  = (if keptByAge tp txn
     then filter (λ t, types.ID t = types.ID txn) (concat sets)
     else drop 1 (filter (λ t, types.ID t = types.ID txn) (concat sets))) ∧
  transactionHeights (exec (pruneSets sets) tp) !! types.ID txn
  = (if keptByAge tp txn then transactionHeights tp !! types.ID txn
     else match filter (λ t, types.ID t = types.ID txn) (concat sets) with
          | [] => transactionHeights tp !! types.ID txn
          | _ :: _ => None
          end).
Proof.
  unfold eval, exec. rewrite pruneSets_mapM.
  fold (eval (mapM (foldM pruneTxn []) sets) tp).
  fold (exec (mapM (foldM pruneTxn []) sets) tp).
  revert tp. induction sets as [|tSet sets IH]; intros tp.
  - simpl. split; [done|]. by destruct (keptByAge tp txn).
  - rewrite eval_mapM_cons, exec_mapM_cons. simpl concat.
    rewrite !filter_app.
    destruct (foldM_pruneTxn_same_ID tSet [] tp) as (Hh & Hout & Hrec).
    destruct (IH (exec (foldM pruneTxn [] tSet) tp)) as (-> & -> & ->).
    rewrite Hout, Hh. simpl app. split; [done|].
    destruct (keptByAge tp txn) eqn:Hkept.
    + rewrite (keptByAge_ext _ tp txn txn Hh Hrec), Hkept. by rewrite Hrec.
    + destruct (filter (λ t, types.ID t = types.ID txn) tSet)
        as [|t ts] eqn:Hocc.
      * rewrite (keptByAge_ext _ tp txn txn Hh Hrec), Hkept. by rewrite Hrec.
      * rewrite (keptByAge_unseen _ txn Hrec). by rewrite Hrec.
Qed.

End same_ID.

(** X8. A transaction is dropped for its age once per call.  If the check
    drops its ID when the filter starts, the first transaction with that
    ID in the saved sets is dropped and the record deleted, and every later
    one, in the same set or in a later set, next to the first or not,
    reads as not seen and is kept.  An ID that the check keeps when the filter
    starts loses no transaction. *)
Theorem X8_stale_transaction_is_dropped_exactly_once
    (sets : list (list types.Transaction)) (tp : TransactionPool)
    (txn : types.Transaction)
    (Hstale : keptByAge tp txn = false) :
  filter (λ t, types.ID t = types.ID txn)
    (concat (eval (pruneSets sets) tp))
  = drop 1 (filter (λ t, types.ID t = types.ID txn) (concat sets)) ∧
  (txn ∈ concat sets →
   transactionHeights (exec (pruneSets sets) tp) !! types.ID txn = None) ∧
  ∀ txn', keptByAge tp txn' = true →
    filter (λ t, types.ID t = types.ID txn')
      (concat (eval (pruneSets sets) tp))
    = filter (λ t, types.ID t = types.ID txn') (concat sets).
Proof.
  destruct (pruneSets_same_ID txn sets tp) as (_ & Hout & Hrec).
  rewrite Hstale in Hout, Hrec. split; [done|]. split.
  - intros Hin. rewrite Hrec.
    assert (txn ∈ filter (λ t, types.ID t = types.ID txn) (concat sets))
      as Hocc by (by apply list_elem_of_filter).
    destruct (filter _ (concat sets)); [by apply elem_of_nil in Hocc|done].
  - intros txn' Hkept.
    destruct (pruneSets_same_ID txn' sets tp) as (_ & Hout' & _).
    by rewrite Hkept in Hout'.
Qed.

Lemma X8_witness :
  filter (λ t, types.ID t = types.ID txnA)
    (concat (eval (pruneSets [[txnA; txnB]; [txnC; txnA]])
               (poolWithA 113 100)))
  = [txnA].
Proof.
  exact (proj1 (X8_stale_transaction_is_dropped_exactly_once
                  [[txnA; txnB]; [txnC; txnA]] (poolWithA 113 100) txnA
                  eq_refl)).
Defined.

(** ** The calls of [ProcessConsensusChange], in order *)

Lemma offers_no_unlock (try : TryFn) (evs : list Event)
    (txns : list types.Transaction) :
  Forall2 (λ ev txn, ∃ err, ev = EvAccept [txn] try err) evs txns →
  EvUnlock ∉ evs.
Proof.
  induction 1 as [|ev txn evs txns [err ->] _ IH].
  - by intros ?%elem_of_nil.
  - intros [[=]|Hin]%elem_of_cons. by apply IH.
Qed.

(** X9. The calls [ProcessConsensusChange] makes outside the pool, in
    order: [Lock]; one singleton call to the gate per transaction of the
    reverted blocks that is to be re-added; then one singleton call per
    transaction that survived the age filter; then [Demote], one
    notification of the subscribers, which are shown the pool as the call
    leaves it, and [DemotedUnlock].  [Unlock] is never called. *)
Theorem X9_calls_outside_the_pool_in_order
    (db : Database) (g : Gate) (rangeSets : RangeOrder)
    (cc : modules.ConsensusChange) (tp : TransactionPool) :
  let run := ProcessConsensusChange db g rangeSets cc in
  ∃ offers readmissions,
    trace run tp
    = [EvLock] ++ offers ++ readmissions
      ++ [EvDemote; EvNotify (exec run tp); EvDemotedUnlock] ∧
    Forall2 (λ ev txn, ∃ err,
               ev = EvAccept [txn] (modules.TryTransactionSet cc) err)
      offers (revertedCandidates cc) ∧
    Forall2 (λ ev txn, ∃ err,
               ev = EvAccept [txn] (modules.TryTransactionSet cc) err)
      readmissions (concat (prunedSets db rangeSets cc tp)) ∧
    EvUnlock ∉ trace run tp.
Proof.
  intros run. subst run.
  rewrite trace_ProcessConsensusChange, trace_pruneSets.
  destruct (readdReverted_flat g cc (scanApplied cc)
              (afterPrune db rangeSets cc tp)) as [_ ->].
  destruct (readdUnconfirmed_flat g cc (prunedSets db rangeSets cc tp)
              (afterReverted db g rangeSets cc tp)) as [_ ->].
  pose proof (trace_offers g (modules.TryTransactionSet cc)
                (revertedCandidates cc) (afterPrune db rangeSets cc tp))
    as Hoffers.
  pose proof (trace_readmissions g cc
                (concat (prunedSets db rangeSets cc tp))
                (afterReverted db g rangeSets cc tp)) as Hreadd.
  fold (revertedCandidates cc). simpl app.
  eexists _, _. split; [reflexivity|]. split; [exact Hoffers|].
  split; [exact Hreadd|].
  intros Hin. apply elem_of_cons in Hin as [[=]|Hin].
  apply elem_of_app in Hin as [Hin|Hin];
    [by apply (offers_no_unlock _ _ _ Hoffers)|].
  apply elem_of_app in Hin as [Hin|Hin];
    [by apply (offers_no_unlock _ _ _ Hreadd)|].
  repeat (apply elem_of_cons in Hin as [[=]|Hin]).
  by apply elem_of_nil in Hin.
Qed.

(** ** A gate that rejects everything (lines 103-141) *)

Section rejecting_gate.

Context (g : Gate) (cc : modules.ConsensusChange).
Context (Hrej : gate_rejects_all g cc).

Lemma exec_offers_rejected (txns : list types.Transaction) tp :
  exec (forM_ txns (λ txn,
          accept g [txn] (modules.TryTransactionSet cc) ;; mret tt)) tp
  = tp.
Proof.
  rewrite exec_offers. induction txns as [|txn txns IH]; [done|].
  simpl. by destruct (Hrej [txn] tp) as [e ->].
Qed.

Lemma exec_readdTxn_rejected txn tp :
  exec (readdTxn g cc txn) tp
  = set_transactionHeights (delete (types.ID txn)) tp.
Proof. rewrite exec_readdTxn. by destruct (Hrej [txn] tp) as [e ->]. Qed.

Lemma exec_readmissions_rejected (txns : list types.Transaction) tp :
  exec (forM_ txns (readdTxn g cc)) tp
  = foldl (λ tp txn, set_transactionHeights (delete (types.ID txn)) tp)
      tp txns.
Proof.
  revert tp. induction txns as [|txn txns IH]; intros tp; [done|].
  by rewrite exec_forM_cons, IH, exec_readdTxn_rejected.
Qed.

End rejecting_gate.

Lemma heights_deleted_stay_deleted (txns : list types.Transaction) tp id :
  transactionHeights tp !! id = None →
  transactionHeights
    (foldl (λ tp txn, set_transactionHeights (delete (types.ID txn)) tp)
       tp txns) !! id = None.
Proof.
  revert tp. induction txns as [|txn txns IH]; intros tp Hid; [done|].
  simpl foldl. apply IH. simpl. rewrite lookup_delete_None. by right.
Qed.

Lemma heights_deleted (txns : list types.Transaction) tp txn :
  txn ∈ txns →
  transactionHeights
    (foldl (λ tp txn, set_transactionHeights (delete (types.ID txn)) tp)
       tp txns) !! types.ID txn = None.
Proof.
  revert tp. induction txns as [|t txns IH]; intros tp.
  - by intros ?%elem_of_nil.
  - intros [->|Hin]%elem_of_cons; simpl foldl; [|by apply IH].
    apply heights_deleted_stay_deleted. simpl. apply lookup_delete_eq.
Qed.

Lemma purged_foldl_delete (txns : list types.Transaction) tp :
  purge (foldl (λ tp txn, set_transactionHeights (delete (types.ID txn)) tp)
           tp txns)
  = set_transactionHeights
      (λ m, foldl (λ m txn, delete (types.ID txn) m) m txns) (purge tp).
Proof.
  revert tp. induction txns as [|txn txns IH]; intros tp; [done|].
  simpl foldl. by rewrite IH.
Qed.

(** X10. When the gate rejects every set and leaves the pool as it is,
    the pool that [ProcessConsensusChange] leaves is the purged pool: no
    claims, no sets, no diffs, size 0; the only other change after the age
    filter is that the height record of every transaction that survived
    the filter is deleted. *)
Theorem X10_rejecting_gate_leaves_the_pool_purged
    (db : Database) (g : Gate) (rangeSets : RangeOrder)
    (cc : modules.ConsensusChange) (tp : TransactionPool)
    (Hrej : gate_rejects_all g cc) :
  let tp' := exec (ProcessConsensusChange db g rangeSets cc) tp in
  tp' = foldl (λ tp txn, set_transactionHeights (delete (types.ID txn)) tp)
          (afterPrune db rangeSets cc tp)
          (concat (prunedSets db rangeSets cc tp)) ∧
  knownObjects tp' = ∅ ∧ transactionSets tp' = ∅ ∧
  transactionSetDiffs tp' = ∅ ∧ transactionListSize tp' = 0 ∧
  ∀ txn, txn ∈ concat (prunedSets db rangeSets cc tp) →
    transactionHeights tp' !! types.ID txn = None.
Proof.
  intros tp'.
  assert (tp' = foldl (λ tp txn,
                         set_transactionHeights (delete (types.ID txn)) tp)
                  (afterPrune db rangeSets cc tp)
                  (concat (prunedSets db rangeSets cc tp))) as Htp'.
  { subst tp'. rewrite exec_ProcessConsensusChange.
    destruct (readdUnconfirmed_flat g cc (prunedSets db rangeSets cc tp)
                (afterReverted db g rangeSets cc tp)) as [-> _].
    rewrite (exec_readmissions_rejected g cc Hrej). f_equal.
    unfold afterReverted.
    destruct (readdReverted_flat g cc (scanApplied cc)
                (afterPrune db rangeSets cc tp)) as [-> _].
    apply (exec_offers_rejected g cc Hrej). }
  split; [done|].
  assert (purge tp' = tp') as Hpurged.
  { rewrite Htp'. rewrite purged_foldl_delete.
    assert (purge (afterPrune db rangeSets cc tp)
            = afterPrune db rangeSets cc tp) as ->.
    { unfold afterPrune.
      apply (pruneSets_inv (λ tp', purge tp' = tp')); [|done].
      by intros id tp0 <-. }
    generalize (concat (prunedSets db rangeSets cc tp)).
    generalize (afterPrune db rangeSets cc tp). clear.
    intros tp txns. revert tp.
    induction txns as [|txn txns IH]; intros tp; [by destruct tp|].
    simpl foldl. by rewrite <- IH. }
  rewrite <- Hpurged. repeat (split; [done|]).
  intros txn Hin. rewrite Hpurged, Htp'. by apply heights_deleted.
Qed.

Lemma sampleGate_rejects_all reverted applied id :
  gate_rejects_all sampleGate (rejectingChange reverted applied id).
Proof.
  intros ts tp. unfold sampleGate. destruct (existsb _ _); simpl; eauto.
Qed.

Lemma X10_witness :
  transactionSets
    (exec (ProcessConsensusChange idealDB sampleGate sampleRange
             (rejectingChange [types.mkBlock [txnA]] [types.mkBlock [txnB]] 7))
       poolWithBC) = ∅.
Proof.
  exact (proj1 (proj2 (proj2 (X10_rejecting_gate_leaves_the_pool_purged
           idealDB sampleGate sampleRange
           (rejectingChange [types.mkBlock [txnA]] [types.mkBlock [txnB]] 7)
           poolWithBC (sampleGate_rejects_all _ _ _))))).
Defined.

(** ** What the purge makes irrelevant (lines 26-85) *)

Lemma same_but_purged_store_step (op : DB → option error * DB) msg tp1 tp2 :
  same_but_purged tp1 tp2 →
  same_but_purged (exec (err ← withDB op; logIfErr msg err) tp1)
                  (exec (err ← withDB op; logIfErr msg err) tp2).
Proof.
  intros (Hs & Hb & Hh & Hd & Hl). rewrite !exec_store_step, Hd.
  destruct (op (dbTx tp2)).1; repeat split; simpl; congruence.
Qed.

Lemma same_but_purged_block_loop
    (op : types.TransactionID → DB → option error * DB)
    (f : Z → Z) msg (blocks : list types.Block) tp1 tp2 :
  same_but_purged tp1 tp2 →
  let loop := forM_ blocks (λ block,
                modify (set_blockHeight f) ;;
                forM_ (types.Transactions block) (λ txn,
                  err ← withDB (op (types.ID txn)); logIfErr msg err)) in
  same_but_purged (exec loop tp1) (exec loop tp2).
Proof.
  intros HR loop. subst loop. revert HR. apply (forM_rel same_but_purged).
  intros block t1 t2 HR. rewrite !exec_bind, !exec_modify.
  apply (forM_rel same_but_purged).
  - intros txn t1' t2'. apply same_but_purged_store_step.
  - destruct HR as (Hs & Hb & Hh & Hd & Hl).
    repeat split; simpl; congruence.
Qed.

Lemma same_but_purged_updateDatabase db cc tp1 tp2 :
  same_but_purged tp1 tp2 →
  same_but_purged (exec (updateDatabase db cc) tp1)
                  (exec (updateDatabase db cc) tp2).
Proof.
  intros HR. rewrite !exec_updateDatabase. cbv zeta.
  apply (same_but_purged_block_loop (λ id d, deleteTransaction db d id)
           types.decr "ERROR: could not delete a transaction:"
           (modules.RevertedBlocks cc)) in HR.
  apply (same_but_purged_block_loop (λ id d, addTransaction db d id)
           types.incr "ERROR: could not add a transaction:"
           (modules.AppliedBlocks cc)) in HR.
  cbv zeta in HR.
  apply (same_but_purged_store_step
           (λ d, putRecentConsensusChange db d (modules.ID cc))
           "ERROR: could not update the recent consensus change:") in HR.
  rewrite (proj1 (proj2 HR)).
  by apply same_but_purged_store_step.
Qed.

(** X11. The object claims, the diffs and the size counter the pool holds
    before the call have no influence on [ProcessConsensusChange]: they
    are only reset, before the first call to the gate.  Two pools that
    agree on the sets, the height, the recorded heights, the store and the
    log give the same final pool and the same calls, for any gate. *)
Theorem X11_purged_fields_do_not_influence_the_result
    (db : Database) (g : Gate) (rangeSets : RangeOrder)
    (cc : modules.ConsensusChange) (tp1 tp2 : TransactionPool)
    (Hsame : same_but_purged tp1 tp2) :
  ProcessConsensusChange db g rangeSets cc tp1
  = ProcessConsensusChange db g rangeSets cc tp2.
Proof.
  apply (same_but_purged_updateDatabase db cc) in Hsame.
  fold (afterUpdate db cc tp1) in Hsame. fold (afterUpdate db cc tp2) in Hsame.
  destruct Hsame as (Hs & Hb & Hh & Hd & Hl).
  assert (savedSets db rangeSets cc tp1 = savedSets db rangeSets cc tp2)
    as Hsaved by (unfold savedSets; by rewrite Hs).
  assert (purge (afterUpdate db cc tp1) = purge (afterUpdate db cc tp2))
    as Hpurged by (unfold purge; by rewrite Hb, Hh, Hd, Hl).
  assert (afterPrune db rangeSets cc tp1 = afterPrune db rangeSets cc tp2)
    as Hprune by (unfold afterPrune; by rewrite Hsaved, Hpurged).
  assert (prunedSets db rangeSets cc tp1 = prunedSets db rangeSets cc tp2)
    as Hpruned by (unfold prunedSets; by rewrite Hsaved, Hpurged).
  assert (afterReverted db g rangeSets cc tp1
          = afterReverted db g rangeSets cc tp2)
    as Hrev by (unfold afterReverted; by rewrite Hprune).
  rewrite (run_unit (ProcessConsensusChange db g rangeSets cc) tp1).
  rewrite (run_unit (ProcessConsensusChange db g rangeSets cc) tp2).
  rewrite !trace_ProcessConsensusChange, !exec_ProcessConsensusChange.
  by rewrite Hsaved, Hpurged, Hprune, Hpruned, Hrev.
Qed.

Lemma X11_witness :
  ProcessConsensusChange idealDB sampleGate sampleRange swapAForB
    poolWithBC_stale
  = ProcessConsensusChange idealDB sampleGate sampleRange swapAForB
      poolWithBC.
Proof.
  apply X11_purged_fields_do_not_influence_the_result.
  by repeat split.
Defined.

(** ** A change without blocks *)

Lemma filter_no_confirmed (txids : gset types.TransactionID)
    (tSet : list types.Transaction) :
  txids = ∅ → filter (λ txn, types.ID txn ∉ txids) tSet = tSet.
Proof.
  intros Hids. induction tSet as [|txn tSet IH]; [done|].
  rewrite filter_cons_True by (rewrite Hids; set_solver). by rewrite IH.
Qed.

(** X12. A change with no reverted and no applied block still takes the
    pool apart: the height and the rest of the in-memory state are as
    before up to the purge, every pooled set is saved unfiltered, and the
    only calls to the gate are the singleton re-admissions of the
    transactions that pass the age filter, so that a set of several
    transactions is not offered again as a set. *)
Theorem X12_change_without_blocks_still_rebuilds_the_pool
    (db : Database) (g : Gate) (rangeSets : RangeOrder)
    (cc : modules.ConsensusChange) (tp : TransactionPool)
    (Hreverted : modules.RevertedBlocks cc = [])
    (Happlied : modules.AppliedBlocks cc = []) :
  let run := ProcessConsensusChange db g rangeSets cc in
  memory (afterUpdate db cc tp) = memory tp ∧
  savedSets db rangeSets cc tp = rangeSets (transactionSets tp) ∧
  ∃ readmissions,
    trace run tp
    = [EvLock] ++ readmissions
      ++ [EvDemote; EvNotify (exec run tp); EvDemotedUnlock] ∧
    Forall2 (λ ev txn, ∃ err,
               ev = EvAccept [txn] (modules.TryTransactionSet cc) err)
      readmissions (concat (prunedSets db rangeSets cc tp)).
Proof.
  intros run. subst run.
  assert (scanApplied cc = ∅) as Hids
    by (unfold scanApplied; by rewrite Happlied).
  split; [|split].
  - unfold afterUpdate. rewrite memory_updateDatabase.
    rewrite Hreverted, Happlied. by destruct tp.
  - rewrite savedSets_filter.
    rewrite <- (list_fmap_id (rangeSets (transactionSets tp))) at 2.
    apply list_fmap_ext. intros _ tSet _. by apply filter_no_confirmed.
  - rewrite trace_ProcessConsensusChange, trace_pruneSets.
    destruct (readdReverted_flat g cc (scanApplied cc)
                (afterPrune db rangeSets cc tp)) as [_ ->].
    rewrite Hreverted. simpl app.
    destruct (readdUnconfirmed_flat g cc (prunedSets db rangeSets cc tp)
                (afterReverted db g rangeSets cc tp)) as [_ ->].
    eexists. split; [reflexivity|]. apply trace_readmissions.
Qed.

Lemma X12_witness :
  savedSets idealDB sampleRange (change [] [] 9) poolWithBC
  = [[txnB; txnC]].
Proof.
  exact (proj1 (proj2 (X12_change_without_blocks_still_rebuilds_the_pool
                         idealDB sampleGate sampleRange (change [] [] 9)
                         poolWithBC eq_refl eq_refl))).
Defined.

Lemma transactionHeights_updateDatabase db cc tp :
  transactionHeights (exec (updateDatabase db cc) tp) = transactionHeights tp.
Proof.
  by rewrite (memory_transactionHeights _ _ (memory_updateDatabase db cc tp)).
Qed.

(** ** An empty pool *)

(** X13. On a pool without sets nothing is saved, filtered or re-admitted:
    after the bookkeeping of the store and the purge, the call only offers
    the transactions of the reverted blocks to the gate, and the pool it
    leaves is the one those calls leave.  No height record is deleted by
    the age filter. *)
Theorem X13_empty_pool_only_resurrects_reverted
    (db : Database) (g : Gate) (rangeSets : RangeOrder)
    (cc : modules.ConsensusChange) (tp : TransactionPool)
    (Hrange : range_ok rangeSets) (Hempty : transactionSets tp = ∅) :
  prunedSets db rangeSets cc tp = [] ∧
  afterPrune db rangeSets cc tp = purge (afterUpdate db cc tp) ∧
  transactionHeights (afterPrune db rangeSets cc tp)
  = transactionHeights tp ∧
  exec (ProcessConsensusChange db g rangeSets cc) tp
  = foldl (λ tp txn, (g [txn] (modules.TryTransactionSet cc) tp).2)
      (purge (afterUpdate db cc tp)) (revertedCandidates cc).
Proof.
  assert (savedSets db rangeSets cc tp = []) as Hsaved.
  { unfold savedSets, afterUpdate.
    rewrite transactionSets_updateDatabase, Hempty.
    pose proof (Hrange ∅) as Hperm. rewrite map_to_list_empty in Hperm.
    by apply Permutation_nil_r in Hperm as ->. }
  assert (prunedSets db rangeSets cc tp = []) as Hpruned
    by (unfold prunedSets; by rewrite Hsaved).
  assert (afterPrune db rangeSets cc tp = purge (afterUpdate db cc tp))
    as Hprune by (unfold afterPrune; by rewrite Hsaved).
  split; [done|]. split; [done|]. split.
  - rewrite Hprune. simpl. apply transactionHeights_updateDatabase.
  - rewrite exec_ProcessConsensusChange, Hpruned. unfold afterReverted.
    rewrite Hprune.
    destruct (readdReverted_flat g cc (scanApplied cc)
                (purge (afterUpdate db cc tp))) as [-> _].
    apply exec_offers.
Qed.

Lemma X13_witness :
  prunedSets idealDB sampleRange
    (change [types.mkBlock [txnA]] [] 3) emptyPool = [].
Proof.
  exact (proj1 (X13_empty_pool_only_resurrects_reverted
                  idealDB sampleGate sampleRange
                  (change [types.mkBlock [txnA]] [] 3) emptyPool
                  sampleRange_ok eq_refl)).
Defined.

(** ** The height records of confirmed transactions *)

Lemma pruned_not_confirmed db rangeSets cc tp txn :
  txn ∈ concat (prunedSets db rangeSets cc tp) →
  types.ID txn ∉ scanApplied cc.
Proof.
  unfold prunedSets. intros Htxn%elem_of_pruned.
  rewrite savedSets_filter in Htxn.
  apply elem_of_concat in Htxn as (l & Htxn & Hl).
  apply list_elem_of_fmap in Hl as (tSet & -> & _).
  by apply list_elem_of_filter in Htxn as [? _].
Qed.

(** X14. [ProcessConsensusChange] itself never deletes the height record
    of a transaction of the applied blocks: such a transaction is filtered
    out of the saved sets before the age filter runs, and the last loop
    only deletes records of transactions that passed both filters.  If the
    gate leaves the record alone, it is after the call what it was
    before. *)
Theorem X14_confirmed_height_records_are_kept
    (db : Database) (g : Gate) (rangeSets : RangeOrder)
    (cc : modules.ConsensusChange) (tp : TransactionPool)
    (id : types.TransactionID)
    (Hid : id ∈ scanApplied cc)
    (Hg : ∀ txn tp',
        transactionHeights (g [txn] (modules.TryTransactionSet cc) tp').2
          !! id
        = transactionHeights tp' !! id) :
  transactionHeights (afterPrune db rangeSets cc tp) !! id
  = transactionHeights tp !! id ∧
  transactionHeights (exec (ProcessConsensusChange db g rangeSets cc) tp)
    !! id
  = transactionHeights tp !! id.
Proof.
  assert (transactionHeights (afterPrune db rangeSets cc tp) !! id
          = transactionHeights tp !! id) as Hprune.
  { unfold afterPrune. rewrite heights_pruneSets_other.
    - simpl. unfold afterUpdate.
      by rewrite transactionHeights_updateDatabase.
    - intros txn Htxn <-. rewrite savedSets_filter in Htxn.
      apply elem_of_concat in Htxn as (l & Htxn & Hl).
      apply list_elem_of_fmap in Hl as (tSet & -> & _).
      by apply list_elem_of_filter in Htxn as [? _]. }
  split; [done|].
  rewrite exec_ProcessConsensusChange, <- Hprune.
  destruct (readdUnconfirmed_flat g cc (prunedSets db rangeSets cc tp)
              (afterReverted db g rangeSets cc tp)) as [-> _].
  apply (forM_inv (λ tp', transactionHeights tp' !! id
                          = transactionHeights
                              (afterPrune db rangeSets cc tp) !! id)).
  { intros txn tp' Htxn <-. rewrite exec_readdTxn.
    apply pruned_not_confirmed in Htxn.
    destruct (g [txn] _ tp').1 eqn:Herr; [|apply Hg].
    simpl. rewrite lookup_delete_ne by (by intros <-). apply Hg. }
  unfold afterReverted.
  destruct (readdReverted_flat g cc (scanApplied cc)
              (afterPrune db rangeSets cc tp)) as [-> _].
  apply (forM_inv (λ tp', transactionHeights tp' !! id
                          = transactionHeights
                              (afterPrune db rangeSets cc tp) !! id));
    [|done].
  intros txn tp' _ <-. rewrite exec_bind, exec_ret, exec_accept. apply Hg.
Qed.

Lemma X14_witness :
  transactionHeights
    (exec (ProcessConsensusChange idealDB sampleGate sampleRange
             (rejectingChange [types.mkBlock [txnA]] [types.mkBlock [txnB]] 7))
       poolWithBC) !! 2%N
  = Some 5.
Proof.
  refine (proj2 (X14_confirmed_height_records_are_kept
                   idealDB sampleGate sampleRange
                   (rejectingChange [types.mkBlock [txnA]]
                      [types.mkBlock [txnB]] 7)
                   poolWithBC 2%N _ _)).
  - vm_compute. reflexivity.
  - intros txn tp'.
    by destruct (sampleGate_rejects_all [types.mkBlock [txnA]]
                   [types.mkBlock [txnB]] 7 [txn] tp') as [e ->].
Defined.

(** ** Where the offered transactions come from *)

Lemma Forall2_elem_of_left {A B} (P : A → B → Prop) (l : list A) (k : list B) x :
  Forall2 P l k → x ∈ l → ∃ y, y ∈ k ∧ P x y.
Proof.
  induction 1 as [|a b l k Hab _ IH]; [by intros ?%elem_of_nil|].
  intros [->|Hin]%elem_of_cons.
  - exists b. split; [by left|done].
  - destruct (IH Hin) as (y & Hy & HP). exists y. split; [by right|done].
Qed.

Lemma elem_of_rangeSets (rangeSets : RangeOrder)
    (m : gmap TransactionSetID (list types.Transaction)) set :
  range_ok rangeSets →
  set ∈ rangeSets m → ∃ sid, m !! sid = Some set.
Proof.
  intros Hrange Hset. rewrite (Hrange m) in Hset.
  apply list_elem_of_fmap in Hset as ([sid set'] & -> & Hin).
  exists sid. by apply elem_of_map_to_list.
Qed.

(** X15. Every transaction [ProcessConsensusChange] hands to the gate is
    handed over alone, with the validation capability of the change, has
    an ID that is in no applied block, and is a transaction of a reverted
    block or of a set the pool held before the call: the call offers no
    confirmed transaction and none of its own making. *)
Theorem X15_offered_transactions_are_unconfirmed_and_known
    (db : Database) (g : Gate) (rangeSets : RangeOrder)
    (cc : modules.ConsensusChange) (tp : TransactionPool)
    (Hrange : range_ok rangeSets) :
  ∀ ts try err,
    EvAccept ts try err ∈ trace (ProcessConsensusChange db g rangeSets cc) tp →
    ∃ txn, ts = [txn] ∧ try = modules.TryTransactionSet cc ∧
           (types.ID txn ∉ scanApplied cc) ∧
           ((∃ block, block ∈ modules.RevertedBlocks cc ∧
                      txn ∈ types.Transactions block) ∨
            (∃ sid set, transactionSets tp !! sid = Some set ∧ txn ∈ set)).
Proof.
  intros ts try err.
  rewrite trace_ProcessConsensusChange, trace_pruneSets.
  destruct (readdReverted_flat g cc (scanApplied cc)
              (afterPrune db rangeSets cc tp)) as [_ ->].
  destruct (readdUnconfirmed_flat g cc (prunedSets db rangeSets cc tp)
              (afterReverted db g rangeSets cc tp)) as [_ ->].
  pose proof (trace_offers g (modules.TryTransactionSet cc)
                (revertedCandidates cc) (afterPrune db rangeSets cc tp))
    as Hoffers.
  pose proof (trace_readmissions g cc
                (concat (prunedSets db rangeSets cc tp))
                (afterReverted db g rangeSets cc tp)) as Hreadd.
  fold (revertedCandidates cc). simpl app.
  intros Hin. apply elem_of_cons in Hin as [[=]|Hin].
  apply elem_of_app in Hin as [Hin|Hin].
  { destruct (Forall2_elem_of_left _ _ _ _ Hoffers Hin)
      as (txn & Htxn & e & [= -> -> ->]).
    exists txn. split; [done|]. split; [done|].
    unfold revertedCandidates in Htxn.
    apply list_elem_of_filter in Htxn as [Hid Htxn]. split; [done|]. left.
    apply elem_of_concat in Htxn as (l & Htxn & Hl).
    apply list_elem_of_fmap in Hl as (block & -> & Hb).
    rewrite elem_of_reverse in Hb. eauto. }
  apply elem_of_app in Hin as [Hin|Hin].
  { destruct (Forall2_elem_of_left _ _ _ _ Hreadd Hin)
      as (txn & Htxn & e & [= -> -> ->]).
    exists txn. split; [done|]. split; [done|].
    unfold prunedSets in Htxn. apply elem_of_pruned in Htxn.
    rewrite savedSets_filter in Htxn.
    apply elem_of_concat in Htxn as (l & Htxn & Hl).
    apply list_elem_of_fmap in Hl as (tSet & -> & Hset).
    apply list_elem_of_filter in Htxn as [Hid Htxn]. split; [done|]. right.
    destruct (elem_of_rangeSets _ _ _ Hrange Hset) as [sid Hsid]. eauto. }
  repeat (apply elem_of_cons in Hin as [[=]|Hin]).
  by apply elem_of_nil in Hin.
Qed.

Lemma X15_witness :
  ∃ txn, [txnA] = [txn] ∧
         modules.TryTransactionSet swapAForB
         = modules.TryTransactionSet swapAForB ∧
         (types.ID txn ∉ scanApplied swapAForB) ∧
         ((∃ block, block ∈ modules.RevertedBlocks swapAForB ∧
                    txn ∈ types.Transactions block) ∨
          (∃ sid set, transactionSets poolWithBC !! sid = Some set ∧
                      txn ∈ set)).
Proof.
  apply (X15_offered_transactions_are_unconfirmed_and_known
           idealDB sampleGate sampleRange swapAForB poolWithBC
           sampleRange_ok [txnA] (modules.TryTransactionSet swapAForB) None).
  vm_compute. apply list_elem_of_further, list_elem_of_here.
Defined.
